(** * dispersal: identifier splitting and expansion

    A shallow embedding of the Go package [splitters] (the Samurai splitter of
    [samurai.go]), of the [expanders] package (the Basic expander) and of the
    GenTest candidate model, together with the properties the specification
    states about them.

    Go's [float64] is IEEE 754 binary64, which is Rocq's primitive [float];
    [math.Sqrt] is the correctly rounded square root [PrimFloat.sqrt].  Go
    strings are byte sequences, sliced by byte offsets: they are modelled by
    [string], one [ascii] per byte. *)

From Stdlib Require Import ZArith QArith Floats Ascii String List Lia.
From stdpp Require Import base option list strings gmap.

Local Open Scope string_scope.
Local Open Scope list_scope.

(** ** Strings *)

(** The Go slice expression [s[a:b]].  Every slice expression of the embedded
    code stays within bounds, so the run-time panic of an out of range slice
    is not modelled. *)
Definition slice (s : string) (a b : nat) : string :=
  String.substring a (b - a) s.

(** [strings.Join(l, "")]: the pieces of a split glued back together. *)
Definition joined (l : list string) : string :=
  fold_right String.append "" l.

(** What a split of a token looks like: pieces, at least one, that glue back
    to the token. *)
Definition splits (token : string) (pieces : list string) : Prop :=
  pieces ≠ [] ∧ joined pieces = token.

Definition isUpper (c : ascii) : bool :=
  (65 <=? nat_of_ascii c)%nat && (nat_of_ascii c <=? 90)%nat.

Definition isLower (c : ascii) : bool :=
  (97 <=? nat_of_ascii c)%nat && (nat_of_ascii c <=? 122)%nat.

Definition isDigit (c : ascii) : bool :=
  (48 <=? nat_of_ascii c)%nat && (nat_of_ascii c <=? 57)%nat.

Definition isLetter (c : ascii) : bool := isUpper c || isLower c.

(** [regexp.MustCompile("[A-Z][a-z]").FindStringIndex(word)]: the start of the
    leftmost occurrence of an upper case letter followed by a lower case one,
    [None] for Go's [nil]. *)
Fixpoint findCutLocation (word : string) : option nat :=
  match word with
  | String c1 ((String c2 _) as rest) =>
      if isUpper c1 && isLower c2 then Some 0%nat
      else S <$> findCutLocation rest
  | _ => None
  end.

(** ** Floating point *)

(** Go's conversion [float64(n)] of an integer: round to nearest even. *)
Definition float64 (z : Z) : float :=
  SF2Prim (binary_normalize prec emax z 0%Z false).

(** Go's comparison [x > y] on [float64]. *)
Definition fgt (x y : float) : bool := PrimFloat.ltb y x.

(** [math.Max], after the special cases of Go's implementation. *)
Definition Max (x y : float) : float :=
  if (PrimFloat.eqb x infinity || PrimFloat.eqb y infinity)%bool then infinity
  else if (PrimFloat.is_nan x || PrimFloat.is_nan y)%bool then nan
  else if (PrimFloat.eqb x 0 && PrimFloat.eqb x y)%bool then
    (if PrimFloat.get_sign x then y else x)
  else if fgt x y then x else y.

(** [math.Log10] at the arguments the worked configurations use: Go documents
    [Log10(0) = -Inf]; [log10 1 = 0], [log10 10 = 1] and [log10 100 = 2].  The
    configurations only rely on [Log10(10)] being positive and finite and on
    [Log10(100)] being greater than one. *)
Definition sampleLog10 (x : float) : float :=
  if PrimFloat.eqb x 0 then neg_infinity
  else if PrimFloat.eqb x 1 then 0%float
  else if PrimFloat.eqb x 10 then 1%float
  else if PrimFloat.eqb x 100 then 2%float
  else nan.

(** ** Frequency tables *)

(** Modelled from the spec: the type [FrequencyTable] is declared outside
    [samurai.go].  Section 3 describes it as a mapping from word to
    non-negative integer count with a separately tracked total, and section
    4.1 makes the frequency of an unknown word zero. *)
Record FrequencyTable : Type := {
  occurrences : gmap string Z;
  totalOccurrences : Z
}.

Definition Frequency (t : FrequencyTable) (word : string) : float :=
  float64 (default 0%Z (occurrences t !! word)).

Definition TotalOccurrences (t : FrequencyTable) : Z := totalOccurrences t.

(** The zero value of [FrequencyTable], which is what [defaultLocalFreqTable]
    and [defaultGlobalFreqTable] hold. *)
Definition defaultLocalFreqTable : FrequencyTable :=
  {| occurrences := ∅; totalOccurrences := 0 |}.

Definition defaultGlobalFreqTable : FrequencyTable :=
  {| occurrences := ∅; totalOccurrences := 0 |}.

(** ** Samurai *)

Definition commonPrefixes : list string :=
  [ "afro"; "ambi"; "amphi"; "ana"; "anglo"; "apo"; "astro"; "bi"; "bio"; "circum"; "cis"; "co"; "col";
    "com"; "con"; "contra"; "cor"; "cryo"; "crypto"; "de"; "de"; "demi"; "di"; "dif"; "dis"; "du"; "duo";
    "eco"; "electro"; "em"; "en"; "epi"; "euro"; "ex"; "franco"; "geo"; "hemi"; "hetero"; "homo"; "hydro";
    "hypo"; "ideo"; "idio"; "il"; "im"; "infra"; "inter"; "intra"; "ir"; "iso"; "macr"; "mal"; "maxi";
    "mega"; "megalo"; "micro"; "midi"; "mini"; "mis"; "mon"; "multi"; "neo"; "omni"; "paleo"; "para"; "ped";
    "peri"; "poly"; "pre"; "preter"; "proto"; "pyro"; "re"; "retro"; "semi"; "socio"; "supra"; "sur"; "sy";
    "syl"; "sym"; "syn"; "tele"; "trans"; "tri"; "twi"; "ultra"; "un"; "uni" ].

Definition commonSuffixes : list string :=
  [ "a"; "ac"; "acea"; "aceae"; "acean"; "aceous"; "ade"; "aemia"; "agogue"; "aholic"; "al"; "ales";
    "algia"; "amine"; "ana"; "anae"; "ance"; "ancy"; "androus"; "andry"; "ane"; "ar"; "archy"; "ard";
    "aria"; "arian"; "arium"; "ary"; "ase"; "athon"; "ation"; "ative"; "ator"; "atory"; "biont";
    "biosis"; "cade"; "caine"; "carp"; "carpic"; "carpous"; "cele"; "cene"; "centric"; "cephalic";
    "cephalous"; "cephaly"; "chory"; "chrome"; "cide"; "clast"; "clinal"; "cline"; "coccus"; "coel";
    "coele"; "colous"; "cracy"; "crat"; "cratic"; "cratical"; "cy"; "cyte"; "derm"; "derma"; "dermatous";
    "dom"; "drome"; "dromous"; "eae"; "ectomy"; "ed"; "ee"; "eer"; "ein"; "eme"; "emia"; "en"; "ence";
    "enchyma"; "ency"; "ene"; "ent"; "eous"; "er"; "ergic"; "ergy"; "es"; "escence"; "escent"; "ese";
    "esque"; "ess"; "est"; "et"; "eth"; "etic"; "ette"; "ey"; "facient"; "fer"; "ferous"; "fic";
    "fication"; "fid"; "florous"; "foliate"; "foliolate"; "fuge"; "ful"; "fy"; "gamous"; "gamy"; "gen";
    "genesis"; "genic"; "genous"; "geny"; "gnathous"; "gon"; "gony"; "grapher"; "graphy"; "gyne";
    "gynous"; "gyny"; "ia"; "ial"; "ian"; "iana"; "iasis"; "iatric"; "iatrics"; "iatry"; "ibility";
    "ible"; "ic"; "icide"; "ician"; "ick obsolete"; "ics"; "idae"; "ide"; "ie"; "ify"; "ile"; "ina";
    "inae"; "ine"; "ineae"; "ing"; "ini"; "ious"; "isation"; "ise"; "ish"; "ism"; "ist"; "istic";
    "istical"; "istically"; "ite"; "itious"; "itis"; "ity"; "ium"; "ive"; "ization"; "ize"; "kinesis";
    "kins"; "latry"; "lepry"; "ling"; "lite"; "lith"; "lithic"; "logue"; "logist"; "logy"; "ly"; "lyse";
    "lysis"; "lyte"; "lytic"; "lyze"; "mancy"; "mania"; "meister"; "ment"; "merous"; "metry"; "mo";
    "morph"; "morphic"; "morphism"; "morphous"; "mycete"; "mycetes"; "mycetidae"; "mycin"; "mycota";
    "mycotina"; "ness"; "nik"; "nomy"; "odon"; "odont"; "odontia"; "oholic"; "oic"; "oid"; "oidea";
    "oideae"; "ol"; "ole"; "oma"; "ome"; "ont"; "onym"; "onymy"; "opia"; "opsida"; "opsis"; "opsy";
    "orama"; "ory"; "ose"; "osis"; "otic"; "otomy"; "ous"; "para"; "parous"; "pathy"; "ped"; "pede";
    "penia"; "phage"; "phagia"; "phagous"; "phagy"; "phane"; "phasia"; "phil"; "phile"; "philia";
    "philiac"; "philic"; "philous"; "phobe"; "phobia"; "phobic"; "phony"; "phore"; "phoresis"; "phorous";
    "phrenia"; "phyll"; "phyllous"; "phyceae"; "phycidae"; "phyta"; "phyte"; "phytina"; "plasia"; "plasm";
    "plast"; "plasty"; "plegia"; "plex"; "ploid"; "pode"; "podous"; "poieses"; "poietic"; "pter";
    "rrhagia"; "rrhea"; "ric"; "ry"; "s"; "scopy"; "sepalous"; "sperm"; "sporous"; "st"; "stasis"; "stat";
    "ster"; "stome"; "stomy"; "taxy"; "th"; "therm"; "thermal"; "thermic"; "thermy"; "thon"; "thymia";
    "tion"; "tome"; "tomy"; "tonia"; "trichous"; "trix"; "tron"; "trophic"; "tropism"; "tropous"; "tropy";
    "tude"; "ty"; "ular"; "ule"; "ure"; "urgy"; "uria"; "uronic"; "urous"; "valent"; "virile"; "vorous";
    "xor"; "y"; "yl"; "yne"; "zoic"; "zoon"; "zygous"; "zyme" ].

Definition buildDefaultPrefixes : gset string := list_to_set commonPrefixes.
Definition buildDefaultSuffixes : gset string := list_to_set commonSuffixes.

Definition defaultPrefixes : gset string := buildDefaultPrefixes.
Definition defaultSuffixes : gset string := buildDefaultSuffixes.

Record Samurai : Type := {
  localFreqTable : FrequencyTable;
  globalFreqTable : FrequencyTable;
  prefixes : gset string;
  suffixes : gset string
}.

(** [NewSamurai]: a [nil] argument ([None]) selects the package default. *)
Definition NewSamurai (localFreqTable globalFreqTable : option FrequencyTable)
    (prefixes suffixes : option (gset string)) : Samurai :=
  {| localFreqTable := default defaultLocalFreqTable localFreqTable;
     globalFreqTable := default defaultGlobalFreqTable globalFreqTable;
     prefixes := default defaultPrefixes prefixes;
     suffixes := default defaultSuffixes suffixes |}.

Definition isPrefix (s : Samurai) (token : string) : bool :=
  bool_decide (token ∈ prefixes s).

Definition isSuffix (s : Samurai) (token : string) : bool :=
  bool_decide (token ∈ suffixes s).

(** The error half of Go's [([]string, error)] results; [None] is [nil]. *)
Definition error : Type := string.

(** A [for] loop over the items [xs] whose body may fail to return. *)
Fixpoint forEach {A I : Type} (body : A → I → option A) (st : A) (xs : list I)
    : option A :=
  match xs with
  | [] => Some st
  | i :: xs => st' ← body st i; forEach body st' xs
  end.

Section SamuraiCode.

(** [math.Log10] belongs to Go's run-time library. *)
Variable Log10 : float → float.

(** The boundary preprocessing of the package, declared outside
    [samurai.go]. *)
Variable addMarkersOnDigits : string → string.
Variable addMarkersOnLowerToUpperCase : string → string.
Variable splitOnMarkers : string → list string.

Definition score (s : Samurai) (word : string) : float :=
  let freqS := Frequency (localFreqTable s) word in
  let globalFreqS := Frequency (globalFreqTable s) word in
  let allStrsFreqP := float64 (TotalOccurrences (localFreqTable s)) in
  (freqS + globalFreqS / Log10 allStrsFreqP)%float.

(** One iteration of the loop of [sameCaseSplit] at index [i], on the loop
    state [(maxScore, splitToken)]; [rec] is the recursive call. *)
Definition sameCaseSplit_body (s : Samurai)
    (rec : string → float → option (list string))
    (token : string) (baseScore : float)
    (st : float * list string) (i : nat) : option (float * list string) :=
  let n := String.length token in
  let left := slice token 0 i in
  let scoreLeft := score s left in
  let shouldSplitLeft :=
    fgt (PrimFloat.sqrt scoreLeft) (Max (score s token) baseScore) in
  let right := slice token i n in
  let scoreRight := score s right in
  let shouldSplitRight :=
    fgt (PrimFloat.sqrt scoreRight) (Max (score s token) baseScore) in
  let isPreffixOrSuffix := isPrefix s left || isSuffix s right in
  if negb isPreffixOrSuffix && shouldSplitLeft && shouldSplitRight then
    if fgt (scoreLeft + scoreRight)%float st.1
    then Some ((scoreLeft + scoreRight)%float, [left; right])
    else Some st
  else if negb isPreffixOrSuffix && shouldSplitLeft then
    temp ← rec right baseScore;
    if (1 <? length temp)%nat then Some (st.1, left :: temp) else Some st
  else Some st.

(** The guards of the two branches of the loop body at index [i]. *)
Definition shouldSplit (s : Samurai) (token : string) (baseScore : float)
    (piece : string) : bool :=
  fgt (PrimFloat.sqrt (score s piece)) (Max (score s token) baseScore).

Definition affixed (s : Samurai) (token : string) (i : nat) : bool :=
  isPrefix s (slice token 0 i)
  || isSuffix s (slice token i (String.length token)).

Definition bothHold (s : Samurai) (token : string) (baseScore : float)
    (i : nat) : bool :=
  negb (affixed s token i)
  && shouldSplit s token baseScore (slice token 0 i)
  && shouldSplit s token baseScore (slice token i (String.length token)).

Definition onlyLeftHolds (s : Samurai) (token : string) (baseScore : float)
    (i : nat) : bool :=
  negb (bothHold s token baseScore i)
  && negb (affixed s token i)
  && shouldSplit s token baseScore (slice token 0 i).

(** The score [scoreLeft + scoreRight] of the two-piece candidate at [i]. *)
Definition pairScore (s : Samurai) (token : string) (i : nat) : float :=
  (score s (slice token 0 i)
   + score s (slice token i (String.length token)))%float.

(** [sameCaseSplit], with [fuel] bounding the depth of the recursion:
    [None] stands for a call that does not return. *)
Fixpoint sameCaseSplit (fuel : nat) (s : Samurai) (token : string)
    (baseScore : float) : option (list string) :=
  match fuel with
  | O => None
  | S fuel =>
      let n := String.length token in
      snd <$> forEach (sameCaseSplit_body s (sameCaseSplit fuel s) token baseScore)
                      ((-1)%float, [token]) (seq 0 n)
  end.

(** The body of the first loop of [Split]: the new value of [word]. *)
Definition camelCut (s : Samurai) (word : string) : string :=
  match findCutLocation word with
  | Some i =>
      if (1 <? String.length word)%nat then
        let n := (String.length word - 1)%nat in
        let camelScore :=
          if (0 <? i)%nat then score s (slice word i n)
          else score s (slice word 0 n) in
        let altCamelScore := score s (slice word (i + 1) n) in
        if fgt camelScore (PrimFloat.sqrt altCamelScore) then
          if (0 <? i)%nat
          then slice word 0 (i - 1) +:+ "_" +:+ slice word i n
          else word
        else slice word 0 i +:+ "_" +:+ slice word (i + 1) n
      else word
  | None => word
  end.

(** The local variables of [Split] when it returns. *)
Record SplitState : Type := {
  preprocessedToken : string;
  processedToken : string;
  splitToken : list string
}.

Definition Split_run (fuel : nat) (s : Samurai) (token : string)
    : option SplitState :=
  let preprocessedToken := addMarkersOnDigits token in
  let preprocessedToken := addMarkersOnLowerToUpperCase preprocessedToken in
  let processedToken :=
    fold_left (fun processedToken word =>
                 processedToken +:+ "_" +:+ camelCut s word)
              (splitOnMarkers preprocessedToken) "" in
  splitToken ←
    forEach (fun splitToken word =>
               sameCaseSplitting ← sameCaseSplit fuel s word (score s word);
               Some (splitToken ++ sameCaseSplitting))
            [] (splitOnMarkers preprocessedToken);
  Some {| preprocessedToken := preprocessedToken;
          processedToken := processedToken;
          splitToken := splitToken |}.

Definition Split (fuel : nat) (s : Samurai) (token : string)
    : option (list string * option error) :=
  st ← Split_run fuel s token;
  Some (splitToken st, None).

(** The final output as section 4.3 of the specification words it: for each
    hardword of the marked token, [sameCaseSplit(hardword, score(hardword))],
    the pieces concatenated in hardword order. *)
Definition Split_spec (fuel : nat) (s : Samurai) (token : string)
    : option (list string) :=
  @concat string <$> mapM (fun hardword => sameCaseSplit fuel s hardword (score s hardword))
                  (splitOnMarkers
                     (addMarkersOnLowerToUpperCase (addMarkersOnDigits token))).

End SamuraiCode.

(** ** Boundary preprocessing *)

(** [strings.Split(s, sep)] for a separator [sep] of one byte. *)
Fixpoint splitOn (sep : ascii) (s : string) : list string :=
  match s with
  | EmptyString => [""]
  | String c rest =>
      if Ascii.eqb c sep then "" :: splitOn sep rest
      else match splitOn sep rest with
           | w :: ws => String c w :: ws
           | [] => [String c ""]
           end
  end.

Module Markers.

(** Modelled from the spec: [addMarkersOnDigits] is declared outside
    [samurai.go]; section 4.2 has it insert a separator between any digit
    and an adjacent letter. *)
Fixpoint addMarkersOnDigits (token : string) : string :=
  match token with
  | String c1 ((String c2 _) as rest) =>
      if (isDigit c1 && isLetter c2) || (isLetter c1 && isDigit c2)
      then String c1 (String "_" (addMarkersOnDigits rest))
      else String c1 (addMarkersOnDigits rest)
  | _ => token
  end.

(** Modelled from the spec: [addMarkersOnLowerToUpperCase] is declared
    outside [samurai.go]; section 4.2 has it insert a separator between a
    lowercase letter and a following uppercase letter. *)
Fixpoint addMarkersOnLowerToUpperCase (token : string) : string :=
  match token with
  | String c1 ((String c2 _) as rest) =>
      if isLower c1 && isUpper c2
      then String c1 (String "_" (addMarkersOnLowerToUpperCase rest))
      else String c1 (addMarkersOnLowerToUpperCase rest)
  | _ => token
  end.

(** Modelled from the spec: [splitOnMarkers] is declared outside
    [samurai.go]; section 4.2 has it split a marked token into its
    separator-delimited hardwords, in order, dropping empty segments. *)
Definition splitOnMarkers (token : string) : list string :=
  filter (λ w, w ≠ "") (splitOn "_" token).

End Markers.

(** ** GenTest: the split-candidate model *)

Module GenTest.

(** Modelled from the spec: the types [expansion], [softword] and
    [potentialSplit] and their methods are declared outside the available
    sources (only their tests are at hand).  Section 3 gives the fields and
    section 4.4 the cohesion arithmetic; a cohesion is a real number, here a
    rational. *)
Record expansion : Type := {
  expWord : string;
  cohesion : Q
}.

Record softword : Type := {
  word : string;
  expansions : list expansion
}.

Record potentialSplit : Type := {
  split : string;
  softwords : list softword
}.

Definition Qmaxb (x y : Q) : Q := if Qle_bool x y then y else x.

(** Modelled from the spec: [softword.highestCohesion] is the maximal
    cohesion over the expansions, or [0] when there is none (section 4.4). *)
Definition softwordHighestCohesion (sw : softword) : Q :=
  match expansions sw with
  | [] => 0%Q
  | e :: es => fold_left (fun m e' => Qmaxb m (cohesion e')) es (cohesion e)
  end.

(** Modelled from the spec: [potentialSplit.highestCohesion] is the sum of
    the softwords' highest cohesions, [0] without softwords (section 4.4). *)
Definition highestCohesion (p : potentialSplit) : Q :=
  fold_left (fun acc sw => (acc + softwordHighestCohesion sw)%Q) (softwords p) 0%Q.

(** The zero value [potentialSplit{}]. *)
Definition emptySplit : potentialSplit := {| split := ""; softwords := [] |}.

(** Modelled from the spec: [findBestSplit] returns the candidate of maximal
    [highestCohesion], the first encountered winning ties, and the zero value
    on an empty list (section 4.4). *)
Definition findBestSplit (potentialSplits : list potentialSplit) : potentialSplit :=
  match potentialSplits with
  | [] => emptySplit
  | c :: cs =>
      fold_left (fun best c' =>
                   if Qle_bool (highestCohesion c') (highestCohesion best)
                   then best else c')
                cs c
  end.

(** The running maximum of [findBestSplit]: the candidates seen so far are
    [pre ++ best :: post], those before [best] strictly less cohesive, those
    after it at most as cohesive. *)
Definition bestOf (best : potentialSplit) (pre post : list potentialSplit) : Prop :=
  Forall (fun c => (highestCohesion c < highestCohesion best)%Q) pre
  ∧ Forall (fun c => (highestCohesion c <= highestCohesion best)%Q) post.

(** Modelled from the spec: [newPotentialSplit] makes one softword, without
    expansions, of every segment of the marked hardword; the empty hardword
    has no softword (section 4.5 and the tests of [newPotentialSplit]). *)
Definition newPotentialSplit (marked : string) : potentialSplit :=
  {| split := marked;
     softwords := (fun w => {| word := w; expansions := [] |})
                    <$> filter (λ w, w ≠ "") (splitOn "_" marked) |}.

Definition cutOnce (token : string) (i : nat) : string :=
  slice token 0 i +:+ "_" +:+ slice token i (String.length token).

Definition cutTwice (token : string) (i j : nat) : string :=
  slice token 0 i +:+ "_" +:+ slice token i j +:+ "_"
    +:+ slice token j (String.length token).

(** Modelled from the spec: [generatePotentialSplits] enumerates every
    subset of size 0, 1 or 2 of the [n - 1] gap positions of the token, one
    candidate per subset (section 4.5). *)
Definition generatePotentialSplits (token : string) : list potentialSplit :=
  let n := String.length token in
  newPotentialSplit token ::
  flat_map (fun i =>
              newPotentialSplit (cutOnce token i) ::
              map (fun j => newPotentialSplit (cutTwice token i j))
                  (seq (i + 1) (n - 1 - i)))
           (seq 1 (n - 1)).

(** [C(n, k)], by Pascal's rule. *)
Fixpoint choose (n k : nat) : nat :=
  match n, k with
  | _, O => 1
  | O, S _ => 0
  | S n', S k' => choose n' k' + choose n' k
  end.

Definition isSpace (c : ascii) : bool :=
  ((9 <=? nat_of_ascii c)%nat && (nat_of_ascii c <=? 13)%nat)
  || (nat_of_ascii c =? 32)%nat.

(** Empty or whitespace-only. *)
Fixpoint isBlank (w : string) : bool :=
  match w with
  | EmptyString => true
  | String c rest => isSpace c && isBlank rest
  end.

(** Do the characters of [w] occur in [entry], in order? *)
Fixpoint isSubsequence (w entry : string) : bool :=
  match entry with
  | EmptyString => match w with EmptyString => true | _ => false end
  | String e entry' =>
      match w with
      | EmptyString => true
      | String c w' =>
          if Ascii.eqb c e then isSubsequence w' entry'
          else isSubsequence w entry'
      end
  end.

(** Modelled from the spec: [findExpansions] is declared outside the
    available sources; only its test is at hand.  Section 4.5 has it return
    the dictionary entries of which the word is an order-preserving
    subsequence, compared by exact characters, and nothing for an empty or
    whitespace-only word. *)
Definition findExpansions (w : string) (dictionary : list string) : list string :=
  if isBlank w then []
  else filter (λ entry, isSubsequence w entry = true) dictionary.

(** The dictionary of the tests of [findExpansions]. *)
Definition testList : list string :=
  ["car"; "string"; "steer"; "set"; "riflemen"; "lender"; "bar"; "length";
   "kamikaze"].

(** The cases of
    [TestFindExpansions_OnGenTestWithCustomList_ShouldReturnAllMatches]: an
    input and the expansions the test expects, in any order. *)
Definition testCases : list (string * list string) :=
  [ ("st", ["string"; "steer"; "set"]);
    ("rlen", ["riflemen"]);
    ("str", ["steer"; "string"]);
    ("len", ["lender"; "length"]);
    ("", []);
    (" ", []) ].

End GenTest.

(** ** The Basic expander *)

Module Expanders.

Section BasicCode.

(** The dynamic values an [interface{}] holds when it is not [nil]. *)
Context {V : Type}.

(** [strings.ToLower] belongs to Go's run-time library. *)
Variable ToLower : string → string.

(** A [map[string]interface{}] maps a key to [None] when it holds [nil]. *)
Record Basic : Type := {
  srcWords : gmap string (option V);
  srcPhrases : gmap string string;
  stopList : gmap string (option V);
  dicctionary : gmap string (option V)
}.

Definition NewBasic (srcWords : gmap string (option V))
    (srcPhrases : gmap string string) (stopList : gmap string (option V))
    (dicc : gmap string (option V)) : Basic :=
  {| srcWords := srcWords; srcPhrases := srcPhrases;
     stopList := stopList; dicctionary := dicc |}.

(** Go's map index expression [m[k]]: the zero value for a missing key. *)
Definition index {A : Type} (zero : A) (m : gmap string A) (k : string) : A :=
  default zero (m !! k).

Definition Expand (b : Basic) (token : string)
    : option (list string) * option error :=
  let token := ToLower token in
  if index None (stopList b) token is Some _ then (Some [token], None)
  else if negb (String.eqb (index "" (srcPhrases b) token) "")
  then (Some (splitOn "-" (index "" (srcPhrases b) token)), None)
  else if index None (srcWords b) token is Some _ then (Some [token], None)
  else (None, None).

(** A key is held by a [map[string]interface{}] used as a set when it
    maps to a value that is not [nil]. *)
Definition held (m : gmap string (option V)) (k : string) : Prop :=
  ∃ v, m !! k = Some (Some v).

(** The phrase a key maps to, when there is one that is not empty. *)
Definition phraseOf (b : Basic) (k : string) (phrase : string) : Prop :=
  srcPhrases b !! k = Some phrase ∧ phrase ≠ "".

End BasicCode.

(** [strings.ToLower] on ASCII text. *)
Fixpoint asciiToLower (s : string) : string :=
  match s with
  | EmptyString => EmptyString
  | String c rest =>
      String (if isUpper c then ascii_of_nat (nat_of_ascii c + 32) else c)
             (asciiToLower rest)
  end.

(** An expander that knows [gui] both as a word and as a phrase. *)
Definition guiBasic : @Basic unit :=
  NewBasic {[ "gui" := Some () ]}
           {[ "gui" := "graphical-user-interface" ]}
           ∅ ∅.

End Expanders.

(** ** Worked configurations *)

Module Examples.

(** A local table that counts the empty word; the global table is the
    package default. *)
Definition countedEmptyWord : FrequencyTable :=
  {| occurrences := {[ "" := 4%Z; "ab" := 1%Z ]}; totalOccurrences := 10 |}.

Definition loopingSamurai : Samurai :=
  NewSamurai (Some countedEmptyWord) None None None.

(** The empty word counted locally, the token known globally only. *)
Definition emptyWordOnly : FrequencyTable :=
  {| occurrences := {[ "" := 4%Z ]}; totalOccurrences := 100 |}.

Definition knownGlobally : FrequencyTable :=
  {| occurrences := {[ "ab" := 1%Z ]}; totalOccurrences := 100 |}.

Definition emptyLeftSamurai : Samurai :=
  NewSamurai (Some emptyWordOnly) (Some knownGlobally) None None.

(** A table of proper words. *)
Definition pieces : FrequencyTable :=
  {| occurrences := {[ "a" := 1%Z; "bcd" := 1%Z; "ab" := 1%Z;
                       "c" := 1%Z; "d" := 1%Z ]};
     totalOccurrences := 10 |}.

Definition piecesSamurai : Samurai :=
  NewSamurai (Some pieces) None None None.

(** Tables whose total occurrence count is 1, and 0. *)
Definition singleOccurrence : FrequencyTable :=
  {| occurrences := {[ "get" := 1%Z ]}; totalOccurrences := 1 |}.

Definition globalWords : FrequencyTable :=
  {| occurrences := {[ "get" := 3%Z ]}; totalOccurrences := 3 |}.

Definition singleSamurai : Samurai :=
  NewSamurai (Some singleOccurrence) (Some globalWords) None None.

Definition noOccurrence : FrequencyTable :=
  {| occurrences := {[ "get" := 2%Z ]}; totalOccurrences := 0 |}.

Definition emptySamurai : Samurai :=
  NewSamurai (Some noOccurrence) (Some globalWords) None None.

End Examples.

(** ** Slices that may panic *)

(** The Go slice expression [s[a:b]] with its run-time check: [None] stands
    for the panic of a slice out of range ([a > b] or [b > len(s)]). *)
Definition sliceChecked (s : string) (a b : nat) : option string :=
  if (a <=? b)%nat && (b <=? String.length s)%nat then Some (slice s a b)
  else None.

Section SamuraiChecked.

Variable Log10 : float → float.

(** The body of the first loop of [Split] once more, with every slice
    expression checked, in the order Go evaluates them. *)
Definition camelCutChecked (s : Samurai) (word : string) : option string :=
  match findCutLocation word with
  | Some i =>
      if (1 <? String.length word)%nat then
        let n := (String.length word - 1)%nat in
        camelScore ←
          (if (0 <? i)%nat then score Log10 s <$> sliceChecked word i n
           else score Log10 s <$> sliceChecked word 0 n);
        altCamelScore ← score Log10 s <$> sliceChecked word (i + 1) n;
        if fgt camelScore (PrimFloat.sqrt altCamelScore) then
          if (0 <? i)%nat
          then before ← sliceChecked word 0 (i - 1);
               after ← sliceChecked word i n;
               Some (before +:+ "_" +:+ after)
          else Some word
        else before ← sliceChecked word 0 i;
             after ← sliceChecked word (i + 1) n;
             Some (before +:+ "_" +:+ after)
      else Some word
  | None => Some word
  end.

End SamuraiChecked.

(** [strings.Join(parts, sep)]. *)
Fixpoint joinWith (sep : string) (parts : list string) : string :=
  match parts with
  | [] => ""
  | part :: rest =>
      match rest with
      | [] => part
      | _ => part +:+ sep +:+ joinWith sep rest
      end
  end.

Module Pairs.

(** A table with two two-piece candidates for [abcd] and no left-only cut. *)
Definition pairs : FrequencyTable :=
  {| occurrences := {[ "a" := 1%Z; "bcd" := 1%Z; "ab" := 2%Z; "cd" := 2%Z ]};
     totalOccurrences := 10 |}.

Definition pairsSamurai : Samurai :=
  NewSamurai (Some pairs) None None None.

(** Tables that make every score [NaN]: a total of 1, no global count. *)
Definition nanSamurai : Samurai :=
  NewSamurai (Some Examples.singleOccurrence) None None None.

(** A table in which [test] passes the threshold, next to the suffix [s]. *)
Definition plural : FrequencyTable :=
  {| occurrences := {[ "test" := 1%Z; "s" := 1%Z ]}; totalOccurrences := 10 |}.

Definition pluralSamurai : Samurai :=
  NewSamurai (Some plural) None None None.

(** The expander of [gui] with a dictionary. *)
Definition guiWithDictionary : @Expanders.Basic unit :=
  Expanders.NewBasic {[ "gui" := Some () ]}
                     {[ "gui" := "graphical-user-interface" ]}
                     ∅ {[ "graphical" := Some () ]}.

End Pairs.

(** * Properties *)

(** ** Strings and loops *)

Lemma substring_whole (s : string) : String.substring 0 (String.length s) s = s.
Proof. induction s as [|c s IH]; simpl; [done | by rewrite IH]. Qed.

Lemma append_String (c : ascii) (s1 s2 : string) :
  String c s1 +:+ s2 = String c (s1 +:+ s2).
Proof. reflexivity. Qed.

Lemma slice_empty (s : string) : slice s 0 0 = "".
Proof. by destruct s. Qed.

Lemma slice_app (s : string) (i : nat) :
  (i ≤ String.length s)%nat →
  slice s 0 i +:+ slice s i (String.length s) = s.
Proof.
  unfold slice. rewrite Nat.sub_0_r. revert i.
  induction s as [|c s IH]; intros i Hi; simpl in *.
  - assert (i = 0%nat) as -> by lia. done.
  - destruct i as [|i].
    + simpl. by rewrite substring_whole.
    + rewrite append_String. f_equal. apply IH. lia.
Qed.

Lemma slice_length (s : string) (i : nat) :
  (i ≤ String.length s)%nat →
  String.length (slice s i (String.length s)) = (String.length s - i)%nat.
Proof.
  unfold slice. revert i.
  induction s as [|c s IH]; intros i Hi; simpl in *.
  - by destruct i.
  - destruct i as [|i]; simpl.
    + by rewrite substring_whole.
    + apply IH. lia.
Qed.

Lemma joined_app (l1 l2 : list string) :
  joined (l1 ++ l2) = joined l1 +:+ joined l2.
Proof.
  induction l1 as [|w l1 IH]; simpl; [done|].
  rewrite IH. clear IH.
  induction w as [|c w IHw]; [done | by rewrite !append_String, IHw].
Qed.

Lemma joined_concat (ls : list (list string)) :
  joined (concat ls) = joined (joined <$> ls).
Proof.
  induction ls as [|l ls IH]; simpl; [done|].
  by rewrite joined_app, IH.
Qed.

Lemma string_app_empty_r (s : string) : s +:+ "" = s.
Proof. induction s as [|c s IH]; [done | by rewrite append_String, IH]. Qed.

(** A loop keeps an invariant that every iteration keeps. *)
Lemma forEach_invariant {A I : Type} (P : A → Prop) (body : A → I → option A)
    (xs : list I) :
  (∀ st i st', i ∈ xs → P st → body st i = Some st' → P st') →
  ∀ st st', P st → forEach body st xs = Some st' → P st'.
Proof.
  induction xs as [|i xs IH]; intros Hbody st st' Hst Hrun; simpl in Hrun.
  - by simplify_eq.
  - destruct (body st i) as [st1|] eqn:Hi; simpl in Hrun; [|done].
    apply (IH (λ st0 i0 st0' Hin, Hbody st0 i0 st0' (list_elem_of_further _ _ _ Hin))
              st1 st'); [|done].
    eapply Hbody; [apply list_elem_of_here | exact Hst | exact Hi].
Qed.

(** A loop returns when every iteration does. *)
Lemma forEach_returns {A I : Type} (body : A → I → option A) (xs : list I) :
  (∀ st i, i ∈ xs → is_Some (body st i)) →
  ∀ st, is_Some (forEach body st xs).
Proof.
  induction xs as [|i xs IH]; intros Hbody st; simpl; [by eexists|].
  destruct (Hbody st i) as [st1 ->]; [apply list_elem_of_here|]. simpl.
  apply IH. intros st0 i0 Hin. apply Hbody. by apply list_elem_of_further.
Qed.

(** ** Samurai: the recursive same-case split *)

Section SamuraiProps.

Variable Log10 : float → float.
Variable addMarkersOnDigits : string → string.
Variable addMarkersOnLowerToUpperCase : string → string.
Variable splitOnMarkers : string → list string.

Lemma sameCaseSplit_body_splits (s : Samurai)
    (rec : string → float → option (list string))
    (token : string) (baseScore : float) (st st' : float * list string)
    (i : nat) :
  (∀ t b l, rec t b = Some l → splits t l) →
  (i ≤ String.length token)%nat →
  splits token st.2 →
  sameCaseSplit_body Log10 s rec token baseScore st i = Some st' →
  splits token st'.2.
Proof.
  intros Hrec Hi Hst Hbody. unfold sameCaseSplit_body in Hbody.
  repeat case_match; simplify_eq; try done.
  - split; [done|]. simpl. by rewrite string_app_empty_r, slice_app.
  - destruct (rec _ _) as [temp|] eqn:Htemp; simpl in Hbody; [|done].
    case_match; simplify_eq; [|done].
    split; [done|]. simpl.
    destruct (Hrec _ _ _ Htemp) as [_ ->]. by apply slice_app.
Qed.

(** Whatever [sameCaseSplit] returns is a non-empty list of pieces that
    concatenate to the token. *)
Lemma sameCaseSplit_splits (fuel : nat) (s : Samurai) (token : string)
    (baseScore : float) (pieces : list string) :
  sameCaseSplit Log10 fuel s token baseScore = Some pieces →
  splits token pieces.
Proof.
  revert token baseScore pieces.
  induction fuel as [|fuel IH]; intros token baseScore pieces Hrun; [done|].
  simpl in Hrun.
  destruct (forEach _ _ _) as [[maxScore splitToken]|] eqn:Hloop;
    simplify_eq/=.
  eapply (forEach_invariant (λ st, splits token st.2)) in Hloop; [done| |].
  - intros st i st' Hin Hst Hbody.
    apply elem_of_seq in Hin.
    eapply sameCaseSplit_body_splits; [| |exact Hst|exact Hbody].
    + intros t b l. apply IH.
    + lia.
  - split; [done|]. simpl. apply string_app_empty_r.
Qed.

Lemma sameCaseSplit_body_mono (s : Samurai)
    (rec rec' : string → float → option (list string))
    (token : string) (baseScore : float) (st st' : float * list string)
    (i : nat) :
  (∀ t b l, rec t b = Some l → rec' t b = Some l) →
  sameCaseSplit_body Log10 s rec token baseScore st i = Some st' →
  sameCaseSplit_body Log10 s rec' token baseScore st i = Some st'.
Proof.
  intros Hrec. unfold sameCaseSplit_body.
  repeat case_match; try done.
  destruct (rec _ _) as [temp|] eqn:Htemp; [|done].
  by rewrite (Hrec _ _ _ Htemp).
Qed.

Lemma forEach_mono {A I : Type} (body body' : A → I → option A) (xs : list I) :
  (∀ st i st', body st i = Some st' → body' st i = Some st') →
  ∀ st st', forEach body st xs = Some st' → forEach body' st xs = Some st'.
Proof.
  intros Hbody. induction xs as [|i xs IH]; intros st st' Hrun; [done|].
  simpl in *. destruct (body st i) as [st1|] eqn:Hi; [|done].
  rewrite (Hbody _ _ _ Hi). simpl in *. by apply IH.
Qed.

(** More fuel does not change a result. *)
Lemma sameCaseSplit_mono (fuel fuel' : nat) (s : Samurai) (token : string)
    (baseScore : float) (pieces : list string) :
  (fuel ≤ fuel')%nat →
  sameCaseSplit Log10 fuel s token baseScore = Some pieces →
  sameCaseSplit Log10 fuel' s token baseScore = Some pieces.
Proof.
  revert fuel' token baseScore pieces.
  induction fuel as [|fuel IH]; intros fuel' token baseScore pieces Hle Hrun;
    [done|].
  destruct fuel' as [|fuel']; [lia|]. simpl in *.
  destruct (forEach _ _ _) as [st|] eqn:Hloop; simplify_eq/=.
  erewrite forEach_mono; [done| |exact Hloop].
  intros st0 i st0'. apply sameCaseSplit_body_mono.
  intros t b l. apply IH. lia.
Qed.

(** The iteration at index 0, whose left piece is the empty string, leaves
    the loop state alone when the empty string does not pass the threshold. *)
Lemma sameCaseSplit_body_first (s : Samurai)
    (rec : string → float → option (list string))
    (token : string) (baseScore : float) (st : float * list string) :
  shouldSplit Log10 s token baseScore "" = false →
  sameCaseSplit_body Log10 s rec token baseScore st 0 = Some st.
Proof.
  unfold shouldSplit, sameCaseSplit_body. rewrite slice_empty. intros ->.
  by rewrite !andb_false_r.
Qed.

(** [sameCaseSplit] returns as soon as the cut before the first byte, whose
    left piece is the empty string, never passes the threshold. *)
Lemma sameCaseSplit_returns (s : Samurai) (baseScore : float) :
  (∀ t, shouldSplit Log10 s t baseScore "" = false) →
  ∀ fuel token, (String.length token < fuel)%nat →
    is_Some (sameCaseSplit Log10 fuel s token baseScore).
Proof.
  intros Hempty.
  induction fuel as [|fuel IH]; intros token Hlen; [lia|].
  simpl. apply fmap_is_Some. apply forEach_returns.
  intros st i Hin. apply elem_of_seq in Hin.
  destruct i as [|i].
  - rewrite sameCaseSplit_body_first by done. by eexists.
  - unfold sameCaseSplit_body.
    destruct (IH (slice token (S i) (String.length token))) as [temp Htemp].
    { rewrite slice_length by lia. lia. }
    rewrite Htemp. simpl. repeat case_match; by eexists.
Qed.

(** ** Samurai: [Split] *)

Lemma forEach_append {A : Type} (f : A → option (list string)) (ws : list A)
    (acc : list string) :
  forEach (fun splitToken w => r ← f w; Some (splitToken ++ r)) acc ws
  = (fun ls => acc ++ concat ls) <$> mapM f ws.
Proof.
  revert acc. induction ws as [|w ws IH]; intros acc; simpl.
  - by rewrite app_nil_r.
  - destruct (f w) as [r|]; simpl; [|done].
    rewrite IH. destruct (mapM f ws) as [ls|]; simpl; [|done].
    by rewrite app_assoc.
Qed.

End SamuraiProps.

Section SamuraiClaims.

Variable Log10 : float → float.
Variable addMarkersOnDigits : string → string.
Variable addMarkersOnLowerToUpperCase : string → string.
Variable splitOnMarkers : string → list string.

(** C2.  The value [Split] returns is the concatenation, over the hardwords
    of the marked token in order, of [sameCaseSplit(hardword,
    score(hardword))], with a [nil] error: the camel-boundary cut, which
    only feeds [processedToken], has no part in it. *)
Theorem Split_is_sameCaseSplit_of_hardwords (fuel : nat) (s : Samurai)
    (token : string) :
  Split Log10 addMarkersOnDigits addMarkersOnLowerToUpperCase splitOnMarkers
        fuel s token
  = (fun pieces => (pieces, None))
      <$> Split_spec Log10 addMarkersOnDigits addMarkersOnLowerToUpperCase
                     splitOnMarkers fuel s token.
Proof.
  unfold Split, Split_run, Split_spec.
  rewrite forEach_append.
  by destruct (mapM _ _).
Qed.

(** Whatever [Split] returns glues back to the hardwords of the marked
    token, and comes with a [nil] error. *)
Lemma Split_joined (fuel : nat) (s : Samurai) (token : string)
    (pieces : list string) (err : option error) :
  Split Log10 addMarkersOnDigits addMarkersOnLowerToUpperCase splitOnMarkers
        fuel s token = Some (pieces, err) →
  err = None ∧
  joined pieces
  = joined (splitOnMarkers
              (addMarkersOnLowerToUpperCase (addMarkersOnDigits token))).
Proof.
  unfold Split, Split_run. rewrite forEach_append.
  generalize (splitOnMarkers (addMarkersOnLowerToUpperCase (addMarkersOnDigits token))).
  intros hardwords Hrun.
  destruct (mapM _ hardwords) as [ls|] eqn:Hls; simplify_eq/=.
  split; [done|]. rewrite joined_concat. f_equal.
  apply mapM_Some_1 in Hls.
  induction Hls as [|w l ws ls Hw _ IH]; [done|].
  rewrite fmap_cons. f_equal; [|done].
  by destruct (sameCaseSplit_splits _ _ _ _ _ _ Hw) as [_ ->].
Qed.

Lemma sameCaseSplit_body_onlyLeft (s : Samurai)
    (rec : string → float → option (list string))
    (token : string) (baseScore : float) (st : float * list string)
    (j : nat) (temp : list string) :
  onlyLeftHolds Log10 s token baseScore j = true →
  rec (slice token j (String.length token)) baseScore = Some temp →
  (1 < length temp)%nat →
  sameCaseSplit_body Log10 s rec token baseScore st j
  = Some (st.1, slice token 0 j :: temp).
Proof.
  unfold onlyLeftHolds, bothHold, affixed, shouldSplit, sameCaseSplit_body.
  intros Hguard Hrec Hlen.
  apply andb_prop in Hguard as [Hguard Hleft].
  apply andb_prop in Hguard as [Hboth Haffixed].
  apply negb_true_iff in Hboth. rewrite Hboth.
  rewrite Haffixed, Hleft, Hrec. simpl.
  apply Nat.ltb_lt in Hlen. by rewrite Hlen.
Qed.

End SamuraiClaims.

(** The camel-boundary cut is computed: on the hardword [String] it rewrites
    the word it works on, and [processedToken] records it; the returned
    pieces do not see it. *)
Example Split_run_String :
  Split_run sampleLog10 Markers.addMarkersOnDigits
            Markers.addMarkersOnLowerToUpperCase Markers.splitOnMarkers
            1 (NewSamurai None None None None) "String"
  = Some {| preprocessedToken := "String";
            processedToken := "__trin";
            splitToken := ["String"] |}.
Proof. vm_compute. reflexivity. Qed.

(** On a table of proper words [Split] returns, and its pieces glue back to
    the token. *)
Example Split_abcd :
  Split sampleLog10 Markers.addMarkersOnDigits
        Markers.addMarkersOnLowerToUpperCase Markers.splitOnMarkers
        2 Examples.piecesSamurai "abcd"
  = Some (["ab"; "c"; "d"], None).
Proof. vm_compute. reflexivity. Qed.

(** ** Samurai: the cut before the first byte *)

Lemma looping_body (rec : string → float → option (list string)) :
  rec "ab" 1%float = None →
  forEach (sameCaseSplit_body sampleLog10 Examples.loopingSamurai rec "ab" 1%float)
          ((-1)%float, ["ab"]) (seq 0 2) = None.
Proof. intros Hrec. vm_compute. by rewrite Hrec. Qed.

Lemma looping_sameCaseSplit (fuel : nat) :
  sameCaseSplit sampleLog10 fuel Examples.loopingSamurai "ab" 1%float = None.
Proof.
  induction fuel as [|fuel IH]; [done|].
  change (sameCaseSplit sampleLog10 (S fuel) Examples.loopingSamurai "ab" 1%float)
    with (snd <$> forEach (sameCaseSplit_body sampleLog10 Examples.loopingSamurai
                             (sameCaseSplit sampleLog10 fuel Examples.loopingSamurai)
                             "ab" 1%float)
                          ((-1)%float, ["ab"]) (seq 0 2)).
  by rewrite (looping_body _ IH).
Qed.

(** C1.  With a local frequency table that counts the empty word four times
    and the token [ab] once (total 10), [Split("ab")] never returns, whatever
    the depth allowed to the recursion: at index 0 the left piece is empty,
    its square-rooted score 2 exceeds the threshold 1, and [sameCaseSplit]
    calls itself on the whole token again. *)
Theorem Split_never_returns_on_counted_empty_word (fuel : nat) :
  Split sampleLog10 Markers.addMarkersOnDigits
        Markers.addMarkersOnLowerToUpperCase Markers.splitOnMarkers
        fuel Examples.loopingSamurai "ab" = None.
Proof.
  unfold Split, Split_run.
  change (Markers.splitOnMarkers
            (Markers.addMarkersOnLowerToUpperCase (Markers.addMarkersOnDigits "ab")))
    with ["ab"].
  simpl forEach.
  replace (score sampleLog10 Examples.loopingSamurai "ab") with 1%float
    by (vm_compute; reflexivity).
  by rewrite looping_sameCaseSplit.
Qed.

(** C3.  The loop of [sameCaseSplit] starts at index 0, where the left piece
    is the empty string: with the empty word counted four times and [ab] of
    score 1/2, both thresholds pass at index 0 and the call returns the empty
    left piece followed by the whole token, and so does [Split]. *)
Theorem sameCaseSplit_cuts_before_first_byte (fuel : nat) :
  score sampleLog10 Examples.emptyLeftSamurai "ab" = 0.5%float
  ∧ bothHold sampleLog10 Examples.emptyLeftSamurai "ab" 0.5%float 0 = true
  ∧ sameCaseSplit sampleLog10 (S fuel) Examples.emptyLeftSamurai "ab" 0.5%float
    = Some [""; "ab"]
  ∧ Split sampleLog10 Markers.addMarkersOnDigits
          Markers.addMarkersOnLowerToUpperCase Markers.splitOnMarkers
          (S fuel) Examples.emptyLeftSamurai "ab"
    = Some ([""; "ab"], None).
Proof.
  assert (sameCaseSplit sampleLog10 (S fuel) Examples.emptyLeftSamurai "ab" 0.5%float
          = Some [""; "ab"]) as Hrun.
  { apply (sameCaseSplit_mono _ 1); [lia|]. vm_compute. reflexivity. }
  split_and!; [vm_compute; reflexivity..|done|].
  unfold Split, Split_run.
  change (Markers.splitOnMarkers
            (Markers.addMarkersOnLowerToUpperCase (Markers.addMarkersOnDigits "ab")))
    with ["ab"].
  cbn [forEach].
  replace (score sampleLog10 Examples.emptyLeftSamurai "ab") with 0.5%float
    by (vm_compute; reflexivity).
  by rewrite Hrun.
Qed.

(** C10.  At an index where only the left threshold passes (and no affix is
    involved) and the recursion on the right piece yields several pieces, the
    loop body overwrites [splitToken] whatever the stored candidate and its
    score are.  With the words [a], [bcd], [ab], [c], [d] counted once, the
    token [abcd] has its only, hence best, two-piece candidate at index 1;
    index 2 passes the left threshold only, and the call returns
    [ab; c; d]. *)
Theorem sameCaseSplit_left_only_overrides_best_pair :
  (∀ Log10 s rec token baseScore st j temp,
     onlyLeftHolds Log10 s token baseScore j = true →
     rec (slice token j (String.length token)) baseScore = Some temp →
     (1 < length temp)%nat →
     sameCaseSplit_body Log10 s rec token baseScore st j
     = Some (st.1, slice token 0 j :: temp))
  ∧ ∃ (s : Samurai) (token : string) (baseScore : float) (i j : nat)
      (temp : list string),
      let n := String.length token in
      (i < j < n)%nat
      ∧ bothHold sampleLog10 s token baseScore i = true
      ∧ (∀ k, (k < n)%nat → bothHold sampleLog10 s token baseScore k = true →
              fgt (pairScore sampleLog10 s token k)
                  (pairScore sampleLog10 s token i) = false)
      ∧ onlyLeftHolds sampleLog10 s token baseScore j = true
      ∧ sameCaseSplit sampleLog10 1 s (slice token j n) baseScore = Some temp
      ∧ (1 < length temp)%nat
      ∧ sameCaseSplit sampleLog10 2 s token baseScore
        = Some (slice token 0 j :: temp)
      ∧ slice token 0 j :: temp ≠ [slice token 0 i; slice token i n].
Proof.
  split; [apply sameCaseSplit_body_onlyLeft|].
  exists Examples.piecesSamurai, "abcd", 0%float, 1%nat, 2%nat, ["c"; "d"].
  repeat split; try (vm_compute; (reflexivity || lia)).
  - intros k Hk.
    destruct k as [|[|[|[|k]]]]; [| | | |simpl in Hk; lia];
      vm_compute; done.
  - vm_compute. discriminate.
Qed.

(** ** Samurai: the score function *)

Lemma float64_0 : float64 0 = 0%float.
Proof. vm_compute. reflexivity. Qed.

Lemma float64_1 : float64 1 = 1%float.
Proof. vm_compute. reflexivity. Qed.

Lemma Prim2SF_zero : Prim2SF 0 = S754_zero false.
Proof. vm_compute. reflexivity. Qed.

Lemma Prim2SF_infinity : Prim2SF infinity = S754_infinity false.
Proof. vm_compute. reflexivity. Qed.

Lemma Prim2SF_neg_infinity : Prim2SF neg_infinity = S754_infinity true.
Proof. vm_compute. reflexivity. Qed.

Lemma Prim2SF_nan : Prim2SF nan = S754_nan.
Proof. vm_compute. reflexivity. Qed.

(** Comparisons and the operations of [score], read on the specification
    side of the floats. *)
Ltac to_spec :=
  repeat match goal with
    | H : context [PrimFloat.leb _ _] |- _ => rewrite FloatAxioms.leb_spec in H
    | H : context [PrimFloat.ltb _ _] |- _ => rewrite FloatAxioms.ltb_spec in H
    | H : context [PrimFloat.eqb _ _] |- _ => rewrite FloatAxioms.eqb_spec in H
    end;
  repeat first
    [ rewrite FloatAxioms.add_spec | rewrite FloatAxioms.div_spec
    | rewrite FloatAxioms.sqrt_spec | rewrite FloatAxioms.ltb_spec
    | rewrite FloatAxioms.leb_spec | rewrite FloatAxioms.eqb_spec ];
  rewrite ?Prim2SF_zero, ?Prim2SF_infinity, ?Prim2SF_neg_infinity, ?Prim2SF_nan in *.

(** A positive float over zero is [+Inf], and stays so under the addition of
    a non-negative one. *)
Lemma add_div_zero_pos (l g : float) :
  PrimFloat.leb 0 l = true → PrimFloat.ltb 0 g = true →
  (l + g / 0)%float = infinity.
Proof.
  intros Hl Hg. apply Prim2SF_inj. to_spec.
  destruct (Prim2SF l) as [[]|[]| |[] ml el], (Prim2SF g) as [[]|[]| |[] mg eg];
    try discriminate; reflexivity.
Qed.

(** Zero over zero is [NaN], and stays so under addition. *)
Lemma add_div_zero_zero (l g : float) :
  PrimFloat.eqb g 0 = true → (l + g / 0)%float = nan.
Proof.
  intros Hg. apply Prim2SF_inj. to_spec.
  destruct (Prim2SF l) as [[]|[]| |[] ml el], (Prim2SF g) as [[]|[]| |[] mg eg];
    try discriminate; reflexivity.
Qed.

(** A finite non-negative float over [-Inf] is a zero, and adding a zero to
    a non-negative float gives a float equal to it (Go's [==], which does not
    tell the two zeros apart). *)
Lemma add_div_neg_infinity (l g : float) :
  PrimFloat.leb 0 l = true → PrimFloat.leb 0 g = true →
  PrimFloat.ltb g infinity = true →
  PrimFloat.eqb (l + g / neg_infinity)%float l = true.
Proof.
  intros Hl Hg Hfin. to_spec.
  destruct (Prim2SF l) as [[]|[]| |[] ml el], (Prim2SF g) as [[]|[]| |[] mg eg];
    try discriminate; try reflexivity;
    cbn; by rewrite Z.compare_refl, Pos.compare_cont_refl.
Qed.

Section ScoreClaims.

Variable Log10 : float → float.

(** C4, as the code has it.  [score] has no guard on the total occurrence
    count.  With Go's [Log10(1) = 0] and [Log10(0) = -Inf], and a
    non-negative local frequency: when the total is 1 the score of a word is
    [+Inf] if its global frequency is positive and [NaN] if it is zero; when
    the total is 0 the score of a word of finite non-negative global
    frequency equals (Go's [==]) its local frequency. *)
Theorem score_unguarded (s : Samurai) (word : string) :
  Log10 0 = neg_infinity →
  Log10 1 = 0%float →
  PrimFloat.leb 0 (Frequency (localFreqTable s) word) = true →
  (TotalOccurrences (localFreqTable s) = 1%Z →
     (PrimFloat.ltb 0 (Frequency (globalFreqTable s) word) = true →
      score Log10 s word = infinity)
     ∧ (PrimFloat.eqb (Frequency (globalFreqTable s) word) 0 = true →
        score Log10 s word = nan))
  ∧ (TotalOccurrences (localFreqTable s) = 0%Z →
     PrimFloat.leb 0 (Frequency (globalFreqTable s) word) = true →
     PrimFloat.ltb (Frequency (globalFreqTable s) word) infinity = true →
     PrimFloat.eqb (score Log10 s word) (Frequency (localFreqTable s) word)
     = true).
Proof.
  intros Hzero Hone Hlocal. unfold score. split.
  - intros ->. rewrite float64_1, Hone. split.
    + by apply add_div_zero_pos.
    + by apply add_div_zero_zero.
  - intros ->. rewrite float64_0, Hzero. by apply add_div_neg_infinity.
Qed.

(** C5.  [score(word)] is the local frequency plus the global frequency
    over [log10] of the local total, and the frequency of a word that a
    table does not hold is zero. *)
Theorem score_formula (s : Samurai) (word : string) :
  score Log10 s word
  = (Frequency (localFreqTable s) word
     + Frequency (globalFreqTable s) word
       / Log10 (float64 (TotalOccurrences (localFreqTable s))))%float
  ∧ (∀ t : FrequencyTable,
       occurrences t !! word = None → Frequency t word = 0%float).
Proof.
  split; [reflexivity|].
  intros t Habsent. unfold Frequency. rewrite Habsent. apply float64_0.
Qed.

End ScoreClaims.

(** With a total of 1, a word known globally scores [+Inf] and an unknown
    word scores [NaN]; with a total of 0, a word scores its local frequency. *)
Lemma score_unguarded_witness :
  score sampleLog10 Examples.singleSamurai "get" = infinity
  ∧ score sampleLog10 Examples.singleSamurai "put" = nan
  ∧ PrimFloat.eqb (score sampleLog10 Examples.emptySamurai "get")
                  (Frequency (localFreqTable Examples.emptySamurai) "get")
    = true.
Proof.
  split_and!.
  - apply (score_unguarded sampleLog10 Examples.singleSamurai "get");
      vm_compute; reflexivity.
  - apply (score_unguarded sampleLog10 Examples.singleSamurai "put");
      vm_compute; reflexivity.
  - apply (score_unguarded sampleLog10 Examples.emptySamurai "get");
      vm_compute; reflexivity.
Defined.

(** C4 fails as stated: with a total of 1 the score is not one constant, and
    it is not finite; with a total of 0 it varies with the word as well. *)
Lemma score_not_a_constant :
  ¬ (∃ c : float, ∀ (s : Samurai) (word : string),
        TotalOccurrences (localFreqTable s) = 0%Z
        ∨ TotalOccurrences (localFreqTable s) = 1%Z →
        score sampleLog10 s word = c
        ∧ PrimFloat.is_finite (score sampleLog10 s word) = true).
Proof.
  intros [c Hc].
  destruct (Hc Examples.singleSamurai "get") as [_ Hfinite]; [by right|].
  vm_compute in Hfinite. discriminate.
Qed.

(** ** Samurai: when the splitter returns *)

(** [math.Max] of anything and a float that is not negative is not negative. *)
Lemma Max_not_negative (x b : float) :
  PrimFloat.ltb b 0 = false → PrimFloat.ltb (Max x b) 0 = false.
Proof.
  intros Hb. unfold Max, fgt.
  destruct (PrimFloat.eqb x infinity || PrimFloat.eqb b infinity);
    [vm_compute; reflexivity|].
  destruct (is_nan x || is_nan b); [vm_compute; reflexivity|].
  destruct (PrimFloat.eqb x 0 && PrimFloat.eqb x b) eqn:Hzero.
  - destruct (get_sign x); [done|].
    apply andb_prop in Hzero as [Hzero _]. to_spec.
    by destruct (Prim2SF x) as [[]|[]| |[] mx ex].
  - destruct (PrimFloat.ltb b x) eqn:Hlt; [|done]. clear Hzero. to_spec.
    by destruct (Prim2SF x) as [[]|[]| |[] mx ex],
                (Prim2SF b) as [[]|[]| |[] mb eb].
Qed.

(** A piece whose score is not positive never passes a threshold that is not
    negative. *)
Lemma shouldSplit_not_positive (Log10 : float → float) (s : Samurai)
    (token piece : string) (baseScore : float) :
  PrimFloat.ltb 0 (score Log10 s piece) = false →
  PrimFloat.ltb baseScore 0 = false →
  shouldSplit Log10 s token baseScore piece = false.
Proof.
  intros Hpiece Hbase. unfold shouldSplit, fgt.
  pose proof (Max_not_negative (score Log10 s token) baseScore Hbase) as Hmax.
  revert Hpiece Hmax.
  generalize (Max (score Log10 s token) baseScore) (score Log10 s piece).
  intros m e He Hm. to_spec.
  by destruct (Prim2SF e) as [[]|[]| |[] me ee],
              (Prim2SF m) as [[]|[]| |[] mm em].
Qed.

Section SamuraiReturns.

Variable Log10 : float → float.
Variable addMarkersOnDigits : string → string.
Variable addMarkersOnLowerToUpperCase : string → string.
Variable splitOnMarkers : string → list string.

(** When the score of the empty word is not positive, [sameCaseSplit]
    returns on every token and every base score that is not negative, and
    what it returns is a non-empty list of pieces that concatenate to the
    token. *)
Theorem sameCaseSplit_total (s : Samurai) (token : string) (baseScore : float) :
  PrimFloat.ltb 0 (score Log10 s "") = false →
  PrimFloat.ltb baseScore 0 = false →
  ∃ pieces,
    (∀ fuel, (String.length token < fuel)%nat →
             sameCaseSplit Log10 fuel s token baseScore = Some pieces)
    ∧ splits token pieces.
Proof.
  intros Hempty Hbase.
  destruct (sameCaseSplit_returns Log10 s baseScore) with
    (fuel := S (String.length token)) (token := token) as [pieces Hrun];
    [|lia|].
  { intros t. by apply shouldSplit_not_positive. }
  exists pieces. split.
  - intros fuel Hfuel. eapply sameCaseSplit_mono; [|exact Hrun]. lia.
  - by eapply sameCaseSplit_splits.
Qed.

(** Under the same condition on the empty word, and with no negative score,
    [Split] returns, with a [nil] error, pieces that concatenate to the
    hardwords of the marked token. *)
Theorem Split_total (s : Samurai) (token : string) :
  PrimFloat.ltb 0 (score Log10 s "") = false →
  (∀ w, PrimFloat.ltb (score Log10 s w) 0 = false) →
  ∃ fuel pieces,
    Split Log10 addMarkersOnDigits addMarkersOnLowerToUpperCase splitOnMarkers
          fuel s token = Some (pieces, None)
    ∧ joined pieces
      = joined (splitOnMarkers
                  (addMarkersOnLowerToUpperCase (addMarkersOnDigits token))).
Proof.
  intros Hempty Hscore.
  assert (∀ ws : list string, ∃ fuel0, ∀ fuel, (fuel0 ≤ fuel)%nat →
            is_Some (mapM (fun w => sameCaseSplit Log10 fuel s w (score Log10 s w)) ws))
    as Hall.
  { induction ws as [|w ws [fuel0 IH]].
    - exists 0%nat. intros fuel _. by eexists.
    - destruct (sameCaseSplit_total s w (score Log10 s w) Hempty (Hscore w))
        as (pieces & Hrun & _).
      exists (fuel0 `max` S (String.length w)). intros fuel Hfuel.
      destruct (IH fuel) as [ls Hls]; [lia|]. simpl.
      rewrite Hrun by lia. simpl. rewrite Hls. by eexists. }
  destruct (Hall (splitOnMarkers
                    (addMarkersOnLowerToUpperCase (addMarkersOnDigits token))))
    as [fuel Hfuel].
  destruct (Hfuel fuel) as [ls Hls]; [lia|].
  exists fuel, (concat ls).
  assert (Split Log10 addMarkersOnDigits addMarkersOnLowerToUpperCase
                splitOnMarkers fuel s token = Some (concat ls, None)) as Hrun.
  { unfold Split, Split_run. rewrite forEach_append. by rewrite Hls. }
  split; [done|]. by eapply Split_joined.
Qed.

End SamuraiReturns.

(** Every word counts zero or once in the table of [a], [bcd], [ab], [c]
    and [d], so that no score is negative. *)
Lemma pieces_counts (w : string) :
  default 0%Z (occurrences Examples.pieces !! w) = 0%Z
  ∨ default 0%Z (occurrences Examples.pieces !! w) = 1%Z.
Proof.
  unfold Examples.pieces. cbn [occurrences].
  rewrite !lookup_insert, lookup_singleton.
  repeat case_decide; simpl; auto.
Qed.

Lemma pieces_score_not_negative (w : string) :
  PrimFloat.ltb (score sampleLog10 Examples.piecesSamurai w) 0 = false.
Proof.
  unfold score, Frequency.
  change (localFreqTable Examples.piecesSamurai) with Examples.pieces.
  change (occurrences (globalFreqTable Examples.piecesSamurai) !! w)
    with ((∅ : gmap string Z) !! w).
  rewrite lookup_empty.
  destruct (pieces_counts w) as [-> | ->]; vm_compute; reflexivity.
Qed.

(** With [a], [bcd], [ab], [c] and [d] counted once, [Split("abcd")] returns:
    [sameCaseSplit] stores the pair [a|bcd] at index 1 and, at index 2,
    calls itself on [cd], which it cuts into [c] and [d]. *)
Lemma Split_total_witness :
  ∃ fuel pieces,
    Split sampleLog10 Markers.addMarkersOnDigits
          Markers.addMarkersOnLowerToUpperCase Markers.splitOnMarkers
          fuel Examples.piecesSamurai "abcd"
    = Some (pieces, None)
    ∧ joined pieces = "abcd".
Proof.
  apply (Split_total sampleLog10 Markers.addMarkersOnDigits
           Markers.addMarkersOnLowerToUpperCase Markers.splitOnMarkers
           Examples.piecesSamurai "abcd").
  - vm_compute. reflexivity.
  - apply pieces_score_not_negative.
Defined.

Example sameCaseSplit_total_on_pieces :
  ∃ pieces,
    sameCaseSplit sampleLog10 5 Examples.piecesSamurai "abcd" 0%float
    = Some pieces ∧ splits "abcd" pieces.
Proof.
  destruct (sameCaseSplit_total sampleLog10 Examples.piecesSamurai "abcd" 0%float)
    as (pieces & Hrun & Hsplits); [vm_compute; reflexivity..|].
  exists pieces. split; [apply Hrun; simpl; lia | done].
Qed.

(** ** GenTest *)

Module GenTestProps.

Import GenTest.

Lemma choose_0 (n : nat) : choose n 0 = 1%nat.
Proof. by destruct n. Qed.

Lemma choose_1 (n : nat) : choose n 1 = n.
Proof.
  induction n as [|n IH]; [done|].
  simpl. rewrite choose_0. simpl. by rewrite IH.
Qed.

(** One candidate per first cut, and one more per second cut after it. *)
Lemma cuts_length {A : Type} (one : nat → A) (two : nat → nat → A) (gaps : nat) :
  ∀ m k, (k + m = S gaps)%nat →
    length (flat_map (fun i => one i :: map (two i) (seq (i + 1) (gaps - i)))
                     (seq k m))
    = (m + choose m 2)%nat.
Proof.
  induction m as [|m IH]; intros k Hk; [done|].
  cbn [seq flat_map]. rewrite length_app. cbn [length].
  rewrite length_map, length_seq, (IH (S k)) by lia.
  cbn [choose]. rewrite choose_1. lia.
Qed.

(** The candidates are the unsplit token, one candidate per gap and one
    per pair of gaps. *)
Lemma generatePotentialSplits_elem (token : string) (c : potentialSplit) :
  c ∈ generatePotentialSplits token
  ↔ c = newPotentialSplit token
    ∨ (∃ i, (1 ≤ i ≤ String.length token - 1)%nat
            ∧ c = newPotentialSplit (cutOnce token i))
    ∨ (∃ i j, (1 ≤ i)%nat ∧ (i < j)%nat ∧ (j ≤ String.length token - 1)%nat
              ∧ c = newPotentialSplit (cutTwice token i j)).
Proof.
  unfold generatePotentialSplits. cbv zeta. rewrite elem_of_cons.
  apply or_iff_compat_l. rewrite list_elem_of_In, in_flat_map. split.
  - intros (i & Hi%in_seq & [<- | Hc]).
    + left. exists i. split; [lia|done].
    + apply in_map_iff in Hc as (j & <- & Hj%in_seq).
      right. exists i, j. split_and!; [lia..|done].
  - intros [(i & Hi & ->) | (i & j & Hi & Hij & Hj & ->)]; exists i.
    + split; [apply in_seq; lia | by left].
    + split; [apply in_seq; lia|]. right.
      apply in_map_iff. exists j. split; [done | apply in_seq; lia].
Qed.

(** C6.  On a token of [n] bytes, with [n - 1] gap positions [1 .. n - 1],
    [generatePotentialSplits] returns [2 ^ (n - 1)] candidates when
    [n - 1 ≤ 2] and [1 + (n - 1) + C(n - 1, 2)] candidates otherwise (the
    latter count is right in both cases).  The marked strings of the
    candidates are the token itself, the token with a separator at one gap
    [i], for every gap, and the token with separators at two gaps [i < j],
    for every pair of gaps, and nothing else; every candidate is the
    potential split of its marked string, and the unsplit token is the first
    candidate. *)
Theorem generatePotentialSplits_subsets (token : string) :
  length (generatePotentialSplits token)
  = (if (String.length token - 1 <=? 2)%nat
     then 2 ^ (String.length token - 1)
     else 1 + (String.length token - 1)
          + choose (String.length token - 1) 2)%nat
  ∧ length (generatePotentialSplits token)
    = (1 + (String.length token - 1)
       + choose (String.length token - 1) 2)%nat
  ∧ (∀ marked,
       marked ∈ split <$> generatePotentialSplits token
       ↔ marked = token
         ∨ (∃ i, (1 ≤ i ≤ String.length token - 1)%nat
                 ∧ marked = slice token 0 i +:+ "_"
                            +:+ slice token i (String.length token))
         ∨ (∃ i j, (1 ≤ i)%nat ∧ (i < j)%nat
                   ∧ (j ≤ String.length token - 1)%nat
                   ∧ marked = slice token 0 i +:+ "_" +:+ slice token i j
                              +:+ "_" +:+ slice token j (String.length token)))
  ∧ (∀ c, c ∈ generatePotentialSplits token →
          softwords c
          = (fun w => {| word := w; expansions := [] |})
              <$> filter (λ w, w ≠ "") (splitOn "_" (split c)))
  ∧ (split <$> head (generatePotentialSplits token)) = Some token.
Proof.
  assert (length (generatePotentialSplits token)
          = (1 + (String.length token - 1)
             + choose (String.length token - 1) 2)%nat) as Hcount.
  { unfold generatePotentialSplits. cbn [length]. f_equal.
    rewrite (cuts_length _ _ (String.length token - 1)); [done | lia]. }
  split_and!; [|done| | |done].
  - rewrite Hcount.
    destruct (String.length token - 1)%nat as [|[|[|gaps]]]; done.
  - intros marked. rewrite list_elem_of_fmap. split.
    + intros (c & -> & Hc). apply generatePotentialSplits_elem in Hc.
      destruct Hc as [-> | [(i & Hi & ->) | (i & j & Hi & Hij & Hj & ->)]].
      * by left.
      * right. left. by exists i.
      * right. right. by exists i, j.
    + intros [-> | [(i & Hi & ->) | (i & j & Hi & Hij & Hj & ->)]].
      * exists (newPotentialSplit token). split; [done|].
        apply generatePotentialSplits_elem. by left.
      * exists (newPotentialSplit (cutOnce token i)). split; [done|].
        apply generatePotentialSplits_elem. right. left. by exists i.
      * exists (newPotentialSplit (cutTwice token i j)). split; [done|].
        apply generatePotentialSplits_elem. right. right. by exists i, j.
  - intros c Hc. apply generatePotentialSplits_elem in Hc.
    by destruct Hc as [-> | [(i & Hi & ->) | (i & j & Hi & Hij & Hj & ->)]].
Qed.

(** The candidates the tests of [generatePotentialSplits] list. *)
Example generatePotentialSplits_car :
  split <$> generatePotentialSplits "car" = ["car"; "c_ar"; "c_a_r"; "ca_r"].
Proof. vm_compute. reflexivity. Qed.

Example generatePotentialSplits_bond :
  split <$> generatePotentialSplits "bond"
  = ["bond"; "b_ond"; "b_o_nd"; "b_on_d"; "bo_nd"; "bo_n_d"; "bon_d"].
Proof. vm_compute. reflexivity. Qed.

Lemma isSubsequence_sublist (w entry : string) :
  isSubsequence w entry = true
  ↔ list_ascii_of_string w `sublist_of` list_ascii_of_string entry.
Proof.
  revert w. induction entry as [|e entry IH]; intros w.
  - destruct w as [|c w]; simpl.
    + done.
    + rewrite sublist_nil_r. naive_solver.
  - destruct w as [|c w]; simpl.
    + split; [intros _; apply sublist_nil_l | done].
    + rewrite sublist_cons_r. destruct (Ascii.eqb_spec c e) as [->|Hne].
      * rewrite IH. split.
        -- intros Hsub. right. by eexists.
        -- intros [Hsub|(l' & Heq & Hsub)]; [|by simplify_eq].
           etrans; [|exact Hsub]. by apply sublist_cons.
      * rewrite IH. simpl. split; [by left|].
        intros [Hsub|(l' & Heq & Hsub)]; [done | by simplify_eq].
Qed.

(** On the rule of section 4.5, [findExpansions] returns, in dictionary
    order, exactly the entries of which the word is an order-preserving
    subsequence, and nothing for an empty or whitespace-only word. *)
Lemma findExpansions_subsequences (w : string) (dictionary : list string) :
  (∀ entry,
     entry ∈ findExpansions w dictionary
     ↔ isBlank w = false ∧ entry ∈ dictionary
       ∧ list_ascii_of_string w `sublist_of` list_ascii_of_string entry)
  ∧ findExpansions w dictionary `sublist_of` dictionary
  ∧ (isBlank w = true → findExpansions w dictionary = []).
Proof.
  unfold findExpansions. split_and!.
  - intros entry. destruct (isBlank w).
    + split; [by intros Hin%elem_of_nil | by intros [Hblank _]].
    + rewrite list_elem_of_filter, isSubsequence_sublist. tauto.
  - destruct (isBlank w); [apply sublist_nil_l | apply sublist_filter].
  - by intros ->.
Qed.

(** The rule of section 4.5 gives what the test of [findExpansions] expects
    on every case but [len]: the test expects [lender] and [length] only,
    and [l], [e], [n] occur in this order in [riflemen] too. *)
Lemma findExpansions_test_cases :
  (∀ input expected,
     (input, expected) ∈ testCases → input ≠ "len" →
     findExpansions input testList ≡ₚ expected)
  ∧ (("len", ["lender"; "length"]) ∈ testCases
     ∧ findExpansions "len" testList = ["riflemen"; "lender"; "length"]).
Proof.
  split.
  - intros input expected Hcase Hlen. unfold testCases in Hcase.
    repeat (apply elem_of_cons in Hcase as [Hcase|Hcase];
            [injection Hcase as -> ->; try done; vm_compute;
             first [reflexivity | apply perm_swap]|]).
    by apply elem_of_nil in Hcase.
  - split; [|vm_compute; reflexivity].
    unfold testCases. do 3 apply list_elem_of_further. apply list_elem_of_here.
Qed.

Lemma findBestSplit_loop (cs pre post : list potentialSplit)
    (best : potentialSplit) :
  bestOf best pre post →
  ∃ pre' post',
    pre ++ best :: post ++ cs
    = pre' ++ fold_left (fun best c' =>
                           if Qle_bool (highestCohesion c') (highestCohesion best)
                           then best else c') cs best :: post'
    ∧ bestOf (fold_left (fun best c' =>
                           if Qle_bool (highestCohesion c') (highestCohesion best)
                           then best else c') cs best) pre' post'.
Proof.
  revert pre post best.
  induction cs as [|c cs IH]; intros pre post best [Hpre Hpost].
  - exists pre, post. by rewrite app_nil_r.
  - simpl. destruct (Qle_bool (highestCohesion c) (highestCohesion best)) eqn:Hle.
    + apply Qle_bool_iff in Hle.
      destruct (IH pre (post ++ [c]) best) as (pre' & post' & Heq & Hbest).
      { split; [done|]. apply Forall_app. split; [done|]. by apply Forall_singleton. }
      exists pre', post'. split; [|done].
      rewrite <- Heq. by rewrite <- (assoc_L (++) post [c] cs).
    + assert (highestCohesion best < highestCohesion c)%Q as Hlt.
      { apply Qnot_le_lt. intros Hle'. apply Qle_bool_iff in Hle'. congruence. }
      destruct (IH (pre ++ best :: post) [] c) as (pre' & post' & Heq & Hbest).
      { split; [|done]. apply Forall_app. split.
        - eapply Forall_impl; [exact Hpre|]. intros x Hx. simpl in Hx.
          by eapply Qlt_trans.
        - apply Forall_cons. split; [done|].
          eapply Forall_impl; [exact Hpost|]. intros x Hx. simpl in Hx.
          by eapply Qle_lt_trans. }
      exists pre', post'. split; [|done].
      rewrite <- Heq. simpl. by rewrite <- (assoc_L (++) pre (best :: post) (c :: cs)).
Qed.

(** C8.  On an empty list [findBestSplit] returns the zero value; on a
    non-empty list it returns a member of the list that is at least as
    cohesive as every candidate, and strictly more cohesive than every
    candidate before it: the first of the most cohesive ones. *)
Theorem findBestSplit_argmax :
  findBestSplit [] = {| split := ""; softwords := [] |}
  ∧ ∀ (c : potentialSplit) (cs : list potentialSplit),
      (∀ c', c' ∈ c :: cs →
             (highestCohesion c' <= highestCohesion (findBestSplit (c :: cs)))%Q)
      ∧ ∃ pre post,
          c :: cs = pre ++ findBestSplit (c :: cs) :: post
          ∧ Forall (fun c' => (highestCohesion c'
                               < highestCohesion (findBestSplit (c :: cs)))%Q) pre.
Proof.
  split; [done|]. intros c cs.
  destruct (findBestSplit_loop cs [] [] c) as (pre & post & Heq & Hpre & Hpost);
    [by split|].
  simpl in Heq. unfold findBestSplit. split.
  - intros c' Hin. rewrite Heq in Hin.
    apply elem_of_app in Hin as [Hin|Hin].
    + apply Qlt_le_weak. by eapply Forall_forall in Hpre.
    + apply elem_of_cons in Hin as [->|Hin]; [apply Qle_refl|].
      by eapply Forall_forall in Hpost.
  - by exists pre, post.
Qed.

(** The cohesion the test of [potentialSplit.highestCohesion] expects. *)
Example highestCohesion_test :
  (highestCohesion
     {| split := "bar_bum";
        softwords := [ {| word := "bar"; expansions := [ {| expWord := "bar"; cohesion := 1.2345 |} ] |};
                       {| word := "bum"; expansions := [ {| expWord := "bump"; cohesion := 0.5551 |};
                                                         {| expWord := "bumpy"; cohesion := 0.1999 |} ] |} ] |}
   == 1.7896)%Q.
Proof. vm_compute. reflexivity. Qed.

(** The candidates of the test of [findBestSplit]. *)
Example findBestSplit_test :
  let bestSplit :=
    {| split := "str_len";
       softwords := [ {| word := "str"; expansions := [ {| expWord := "string"; cohesion := 2.3432 |} ] |};
                      {| word := "len"; expansions := [ {| expWord := "length"; cohesion := 2.0011 |} ] |} ] |} in
  let notSoBadSplit :=
    {| split := "st_rlen";
       softwords := [ {| word := "st"; expansions := [ {| expWord := "string"; cohesion := 1.9432 |} ] |};
                      {| word := "rlen"; expansions := [ {| expWord := "riflemen"; cohesion := 0.9011 |} ] |} ] |} in
  let badSplit :=
    {| split := "s_trlen";
       softwords := [ {| word := "s"; expansions := [] |};
                      {| word := "trlen"; expansions := [] |} ] |} in
  findBestSplit [badSplit; bestSplit; notSoBadSplit] = bestSplit.
Proof. vm_compute. reflexivity. Qed.

End GenTestProps.

(** ** The Basic expander *)

Module ExpandersProps.

Import Expanders.

Section BasicProps.

Context {V : Type}.
Variable ToLower : string → string.

Lemma index_held (m : gmap string (option V)) (k : string) :
  held m k → ∃ v, index None m k = Some v.
Proof. intros [v Hv]. exists v. unfold index. by rewrite Hv. Qed.

Lemma index_not_held (m : gmap string (option V)) (k : string) :
  ¬ held m k → index None m k = None.
Proof.
  unfold held, index. intros Hnot.
  destruct (m !! k) as [[v|]|]; simpl; [|done..].
  exfalso. apply Hnot. by exists v.
Qed.

Lemma index_phrase (b : @Basic V) (k phrase : string) :
  phraseOf b k phrase →
  index "" (srcPhrases b) k = phrase ∧ String.eqb phrase "" = false.
Proof.
  intros [Hin Hne]. unfold index. rewrite Hin.
  split; [done | by apply String.eqb_neq].
Qed.

Lemma index_no_phrase (b : @Basic V) (k : string) :
  ¬ (∃ phrase, phraseOf b k phrase) →
  index "" (srcPhrases b) k = "".
Proof.
  unfold phraseOf, index. intros Hnot.
  destruct (srcPhrases b !! k) as [phrase|]; simpl; [|done].
  destruct (String.eqb_spec phrase "") as [->|Hne]; [done|].
  exfalso. apply Hnot. by exists phrase.
Qed.

(** C9, as the code has it.  [Expand] case-folds the token and then, with
    a [nil] error in every case: returns the folded token alone if the
    stoplist holds it; otherwise returns the hyphen-delimited parts of
    the phrase the folded token maps to, if any; otherwise returns the
    folded token alone if the known words hold it; otherwise returns no
    result. *)
Theorem Expand_by_precedence (b : @Basic V) (token : string) :
  (held (stopList b) (ToLower token) →
   Expand ToLower b token = (Some [ToLower token], None))
  ∧ (∀ phrase,
       ¬ held (stopList b) (ToLower token) →
       phraseOf b (ToLower token) phrase →
       Expand ToLower b token = (Some (splitOn "-" phrase), None))
  ∧ (¬ held (stopList b) (ToLower token) →
     ¬ (∃ phrase, phraseOf b (ToLower token) phrase) →
     held (srcWords b) (ToLower token) →
     Expand ToLower b token = (Some [ToLower token], None))
  ∧ (¬ held (stopList b) (ToLower token) →
     ¬ (∃ phrase, phraseOf b (ToLower token) phrase) →
     ¬ held (srcWords b) (ToLower token) →
     Expand ToLower b token = (None, None))
  ∧ (Expand ToLower b token).2 = None.
Proof.
  unfold Expand. split_and!.
  - by intros [v ->]%index_held.
  - intros phrase ->%index_not_held [-> ->]%index_phrase. done.
  - intros ->%index_not_held ->%index_no_phrase [v ->]%index_held. done.
  - intros ->%index_not_held ->%index_no_phrase ->%index_not_held. done.
  - by repeat case_match.
Qed.

End BasicProps.

(** C9 fails as stated: [gui] is a known word, yet [Expand("GUI")] returns
    the parts of the phrase [gui] maps to. *)
Lemma Expand_phrase_before_known_word :
  ¬ (∀ (b : @Basic unit) (token : string),
       held (stopList b) (asciiToLower token)
       ∨ held (srcWords b) (asciiToLower token) →
       Expand asciiToLower b token = (Some [asciiToLower token], None)).
Proof.
  intros Hclaim.
  assert (Expand asciiToLower guiBasic "GUI" = (Some ["gui"], None)) as Hgui.
  { apply Hclaim. right. exists (). vm_compute. reflexivity. }
  vm_compute in Hgui. discriminate.
Qed.

Example Expand_GUI :
  Expand asciiToLower guiBasic "GUI"
  = (Some ["graphical"; "user"; "interface"], None).
Proof. vm_compute. reflexivity. Qed.

End ExpandersProps.

(** * Further properties of the Samurai splitter *)

Lemma forEach_fixed {A I : Type} (body : A → I → option A) (st : A) (xs : list I) :
  (∀ i, i ∈ xs → body st i = Some st) → forEach body st xs = Some st.
Proof.
  induction xs as [|i xs IH]; intros Hbody; [done|].
  simpl. rewrite Hbody by apply list_elem_of_here. simpl.
  apply IH. intros j Hj. apply Hbody. by apply list_elem_of_further.
Qed.

Lemma slice_prefix_length (s : string) (i : nat) :
  (i ≤ String.length s)%nat → String.length (slice s 0 i) = i.
Proof.
  unfold slice. rewrite Nat.sub_0_r. revert i.
  induction s as [|c s IH]; intros i Hi; simpl in *.
  - by assert (i = 0%nat) as -> by lia.
  - destruct i as [|i]; [done|]. simpl. f_equal. apply IH. lia.
Qed.

Lemma length_not_empty (s : string) : (0 < String.length s)%nat → s ≠ "".
Proof. by destruct s; [simpl; lia|]. Qed.

(** [fgt v m] fails when [m] is [+Inf] or [NaN]. *)
Lemma Max_nan (x b : float) :
  is_nan x || is_nan b = true → Max x b = infinity ∨ Max x b = nan.
Proof.
  intros Hnan. unfold Max.
  destruct (PrimFloat.eqb x infinity || PrimFloat.eqb b infinity); [by left|].
  rewrite Hnan. by right.
Qed.

Lemma fgt_infinity (v : float) : fgt v infinity = false.
Proof.
  unfold fgt. to_spec. by destruct (Prim2SF v) as [[]|[]| |[] mv ev].
Qed.

Lemma fgt_nan (v : float) : fgt v nan = false.
Proof.
  unfold fgt. to_spec. by destruct (Prim2SF v) as [[]|[]| |[] mv ev].
Qed.

Lemma eqb_zero_order (x : float) :
  PrimFloat.eqb x 0 = true →
  PrimFloat.ltb 0 x = false ∧ PrimFloat.ltb x 0 = false.
Proof.
  intros Hx. to_spec. by destruct (Prim2SF x) as [[]|[]| |[] mx ex].
Qed.

Lemma append_length (s1 s2 : string) :
  String.length (s1 +:+ s2) = (String.length s1 + String.length s2)%nat.
Proof.
  induction s1 as [|c s1 IH]; [done|]. rewrite append_String. simpl. by rewrite IH.
Qed.

(** Pieces none of which is empty are at most as many as their bytes. *)
Lemma joined_length (pieces : list string) :
  Forall (λ piece, piece ≠ "") pieces →
  (length pieces ≤ String.length (joined pieces))%nat.
Proof.
  induction 1 as [|piece pieces Hpiece _ IH]; [done|].
  simpl. rewrite append_length. destruct piece; [done|]. simpl. lia.
Qed.

Section SamuraiFurther.

Variable Log10 : float → float.
Variable addMarkersOnDigits : string → string.
Variable addMarkersOnLowerToUpperCase : string → string.
Variable splitOnMarkers : string → list string.

(** An iteration leaves the loop state alone when an affix is involved or
    the left piece does not pass the threshold. *)
Lemma sameCaseSplit_body_skip (s : Samurai)
    (rec : string → float → option (list string))
    (token : string) (baseScore : float) (st : float * list string) (i : nat) :
  affixed s token i = true
  ∨ shouldSplit Log10 s token baseScore (slice token 0 i) = false →
  sameCaseSplit_body Log10 s rec token baseScore st i = Some st.
Proof.
  unfold affixed, shouldSplit, sameCaseSplit_body. intros [-> | ->]; [done|].
  by rewrite !andb_false_r.
Qed.

(** What [sameCaseSplit] returns at some depth of recursion it returns at
    every greater depth, and it is a non-empty list of pieces that
    concatenate, in order, to the token. *)
Theorem sameCaseSplit_result (fuel : nat) (s : Samurai) (token : string)
    (baseScore : float) (pieces : list string) :
  sameCaseSplit Log10 fuel s token baseScore = Some pieces →
  pieces ≠ [] ∧ joined pieces = token
  ∧ ∀ fuel', (fuel ≤ fuel')%nat →
             sameCaseSplit Log10 fuel' s token baseScore = Some pieces.
Proof.
  intros Hrun.
  destruct (sameCaseSplit_splits _ _ _ _ _ _ Hrun) as [Hne Hjoined].
  split_and!; [done..|].
  intros fuel' Hle. by eapply sameCaseSplit_mono.
Qed.

(** [sameCaseSplit] returns the token unsplit when, at every index of the
    loop, the left piece is a common prefix, or the right piece is a common
    suffix, or the left piece does not pass the threshold. *)
Theorem sameCaseSplit_unsplit (fuel : nat) (s : Samurai) (token : string)
    (baseScore : float) :
  (∀ i, (i < String.length token)%nat →
        affixed s token i = true
        ∨ shouldSplit Log10 s token baseScore (slice token 0 i) = false) →
  sameCaseSplit Log10 (S fuel) s token baseScore = Some [token].
Proof.
  intros Hskip. simpl. rewrite forEach_fixed; [done|].
  intros i Hi%elem_of_seq. apply sameCaseSplit_body_skip, Hskip. lia.
Qed.

(** A token whose score is [NaN], or a base score that is [NaN], is never
    split: no comparison against the threshold succeeds. *)
Theorem sameCaseSplit_nan_unsplit (fuel : nat) (s : Samurai) (token : string)
    (baseScore : float) :
  is_nan (score Log10 s token) || is_nan baseScore = true →
  sameCaseSplit Log10 (S fuel) s token baseScore = Some [token].
Proof.
  intros Hnan. simpl. rewrite forEach_fixed; [done|].
  intros i _. apply sameCaseSplit_body_skip. right. unfold shouldSplit.
  destruct (Max_nan _ _ Hnan) as [-> | ->]; [apply fgt_infinity | apply fgt_nan].
Qed.

(** When every word scores zero, [Split] returns the hardwords of the marked
    token as they are, with a [nil] error. *)
Theorem Split_zero_scores (fuel : nat) (s : Samurai) (token : string) :
  (∀ w, PrimFloat.eqb (score Log10 s w) 0 = true) →
  Split Log10 addMarkersOnDigits addMarkersOnLowerToUpperCase splitOnMarkers
        (S fuel) s token
  = Some (splitOnMarkers
            (addMarkersOnLowerToUpperCase (addMarkersOnDigits token)), None).
Proof.
  intros Hzero. unfold Split, Split_run. rewrite forEach_append.
  generalize (splitOnMarkers (addMarkersOnLowerToUpperCase (addMarkersOnDigits token))).
  intros hardwords.
  assert (mapM (fun w => sameCaseSplit Log10 (S fuel) s w (score Log10 s w)) hardwords
          = Some ((fun w => [w]) <$> hardwords)) as ->.
  { induction hardwords as [|w ws IH]; [done|].
    cbn [mapM]. rewrite IH. clear IH.
    assert (sameCaseSplit Log10 (S fuel) s w (score Log10 s w) = Some [w]) as ->; [|done].
    simpl. rewrite forEach_fixed; [done|].
    intros i _. apply sameCaseSplit_body_skip. right.
    apply shouldSplit_not_positive; by apply eqb_zero_order. }
  simpl. do 2 f_equal.
  induction hardwords as [|w ws IH]; [done|].
  rewrite fmap_cons. cbn [concat app]. by f_equal.
Qed.

Lemma sameCaseSplit_pieces_not_empty (fuel : nat) (s : Samurai) (token : string)
    (baseScore : float) (pieces : list string) :
  PrimFloat.ltb 0 (score Log10 s "") = false →
  PrimFloat.ltb baseScore 0 = false →
  token ≠ "" →
  sameCaseSplit Log10 fuel s token baseScore = Some pieces →
  Forall (λ piece, piece ≠ "") pieces.
Proof.
  intros Hempty Hbase. revert token pieces.
  induction fuel as [|fuel IH]; intros token pieces Htoken Hrun; [done|].
  simpl in Hrun.
  destruct (forEach _ _ _) as [[maxScore splitToken]|] eqn:Hloop; simplify_eq/=.
  eapply (forEach_invariant (λ st, Forall (λ piece, piece ≠ "") st.2)) in Hloop;
    [done| |by apply Forall_singleton].
  intros st i st' Hin%elem_of_seq Hst Hbody.
  destruct i as [|i].
  { rewrite sameCaseSplit_body_first in Hbody; [by simplify_eq|].
    by apply shouldSplit_not_positive. }
  assert (slice token 0 (S i) ≠ "") as Hleft.
  { apply length_not_empty. rewrite slice_prefix_length; lia. }
  assert (slice token (S i) (String.length token) ≠ "") as Hright.
  { apply length_not_empty. rewrite slice_length; lia. }
  unfold sameCaseSplit_body in Hbody.
  repeat case_match; simplify_eq; try done.
  - simpl. by repeat constructor.
  - destruct (sameCaseSplit _ _ _ _ _) as [temp|] eqn:Htemp; simpl in Hbody; [|done].
    case_match; simplify_eq; [|done].
    simpl. constructor; [done|]. by eapply IH.
Qed.

(** When the score of the empty word is not positive and the base score is
    not negative, no piece of a non-empty token is empty, so that there are
    at most as many pieces as the token has bytes. *)
Theorem sameCaseSplit_no_empty_piece (fuel : nat) (s : Samurai) (token : string)
    (baseScore : float) (pieces : list string) :
  PrimFloat.ltb 0 (score Log10 s "") = false →
  PrimFloat.ltb baseScore 0 = false →
  token ≠ "" →
  sameCaseSplit Log10 fuel s token baseScore = Some pieces →
  Forall (λ piece, piece ≠ "") pieces
  ∧ (length pieces ≤ String.length token)%nat.
Proof.
  intros Hempty Hbase Htoken Hrun.
  pose proof (sameCaseSplit_pieces_not_empty _ _ _ _ _ Hempty Hbase Htoken Hrun)
    as Hpieces.
  split; [done|].
  destruct (sameCaseSplit_splits _ _ _ _ _ _ Hrun) as [_ <-].
  by apply joined_length.
Qed.

(** What [Split] returns at some depth of recursion it returns at every
    greater depth; its error is [nil] and its pieces concatenate, in order,
    to the concatenation of the hardwords of the marked token. *)
Theorem Split_result (fuel : nat) (s : Samurai) (token : string)
    (pieces : list string) (err : option error) :
  Split Log10 addMarkersOnDigits addMarkersOnLowerToUpperCase splitOnMarkers
        fuel s token = Some (pieces, err) →
  err = None
  ∧ joined pieces
    = joined (splitOnMarkers
                (addMarkersOnLowerToUpperCase (addMarkersOnDigits token)))
  ∧ ∀ fuel', (fuel ≤ fuel')%nat →
      Split Log10 addMarkersOnDigits addMarkersOnLowerToUpperCase splitOnMarkers
            fuel' s token = Some (pieces, err).
Proof.
  intros Hrun.
  destruct (Split_joined _ _ _ _ _ _ _ _ _ Hrun) as [-> Hjoined].
  split_and!; [done..|].
  intros fuel' Hle. revert Hrun. unfold Split, Split_run.
  rewrite !forEach_append.
  generalize (splitOnMarkers (addMarkersOnLowerToUpperCase (addMarkersOnDigits token))).
  intros hardwords Hrun.
  destruct (mapM (fun w => sameCaseSplit Log10 fuel s w (score Log10 s w)) hardwords)
    as [ls|] eqn:Hls; simpl in Hrun; [|done]. simplify_eq.
  apply mapM_Some_1 in Hls.
  assert (mapM (fun w => sameCaseSplit Log10 fuel' s w (score Log10 s w)) hardwords
          = Some ls) as ->; [|done].
  apply mapM_Some_2. eapply Forall2_impl; [exact Hls|].
  intros w l Hw. by eapply sameCaseSplit_mono.
Qed.

End SamuraiFurther.

Lemma sameCaseSplit_result_witness :
  ["ab"; "c"; "d"] ≠ [] ∧ joined ["ab"; "c"; "d"] = "abcd"
  ∧ ∀ fuel', (2 ≤ fuel')%nat →
             sameCaseSplit sampleLog10 fuel' Examples.piecesSamurai "abcd" 0%float
             = Some ["ab"; "c"; "d"].
Proof.
  apply (sameCaseSplit_result sampleLog10 2 Examples.piecesSamurai "abcd" 0%float).
  vm_compute. reflexivity.
Defined.

(** [test] passes the threshold at index 4, where the right piece is the
    common suffix [s]. *)
Lemma sameCaseSplit_unsplit_witness :
  sameCaseSplit sampleLog10 1 Pairs.pluralSamurai "tests" 0%float
  = Some ["tests"].
Proof.
  apply (sameCaseSplit_unsplit sampleLog10 0 Pairs.pluralSamurai "tests" 0%float).
  intros i Hi.
  destruct i as [|[|[|[|[|i]]]]]; [right|right|right|right|left|simpl in Hi; lia];
    vm_compute; reflexivity.
Defined.

Lemma sameCaseSplit_nan_unsplit_witness :
  sameCaseSplit sampleLog10 1 Pairs.nanSamurai "get" 1%float = Some ["get"].
Proof.
  apply (sameCaseSplit_nan_unsplit sampleLog10 0 Pairs.nanSamurai "get" 1%float).
  vm_compute. reflexivity.
Defined.

Lemma Split_zero_scores_witness :
  Split sampleLog10 Markers.addMarkersOnDigits
        Markers.addMarkersOnLowerToUpperCase Markers.splitOnMarkers
        1 (NewSamurai None None None None) "getString"
  = Some (["get"; "String"], None).
Proof.
  apply (Split_zero_scores sampleLog10 Markers.addMarkersOnDigits
           Markers.addMarkersOnLowerToUpperCase Markers.splitOnMarkers
           0 (NewSamurai None None None None) "getString").
  intros w. unfold score, Frequency. simpl. rewrite lookup_empty.
  vm_compute. reflexivity.
Defined.

Lemma sameCaseSplit_no_empty_piece_witness :
  Forall (λ piece, piece ≠ "") ["ab"; "c"; "d"]
  ∧ (length ["ab"; "c"; "d"] ≤ String.length "abcd")%nat.
Proof.
  apply (sameCaseSplit_no_empty_piece sampleLog10 2 Examples.piecesSamurai
           "abcd" 0%float);
    [vm_compute; reflexivity | vm_compute; reflexivity | discriminate
    | vm_compute; reflexivity].
Defined.

Lemma Split_result_witness :
  @None error = None
  ∧ joined ["ab"; "c"; "d"] = joined ["abcd"]
  ∧ ∀ fuel', (2 ≤ fuel')%nat →
      Split sampleLog10 Markers.addMarkersOnDigits
            Markers.addMarkersOnLowerToUpperCase Markers.splitOnMarkers
            fuel' Examples.piecesSamurai "abcd"
      = Some (["ab"; "c"; "d"], None).
Proof.
  apply (Split_result sampleLog10 Markers.addMarkersOnDigits
           Markers.addMarkersOnLowerToUpperCase Markers.splitOnMarkers
           2 Examples.piecesSamurai "abcd" ["ab"; "c"; "d"] None).
  vm_compute. reflexivity.
Defined.

(** ** Slices within bounds *)

Lemma sliceChecked_ok (s : string) (a b : nat) :
  (a ≤ b)%nat → (b ≤ String.length s)%nat →
  sliceChecked s a b = Some (slice s a b).
Proof.
  intros Hab Hb. unfold sliceChecked.
  apply Nat.leb_le in Hab, Hb. by rewrite Hab, Hb.
Qed.

Lemma findCutLocation_cons (c1 c2 : ascii) (rest : string) :
  findCutLocation (String c1 (String c2 rest))
  = if isUpper c1 && isLower c2 then Some 0%nat
    else S <$> findCutLocation (String c2 rest).
Proof. reflexivity. Qed.

(** A match of [[A-Z][a-z]] is two bytes long. *)
Lemma findCutLocation_bound (word : string) (i : nat) :
  findCutLocation word = Some i → (i + 2 ≤ String.length word)%nat.
Proof.
  revert i. induction word as [|c1 rest IH]; intros i Hcut; [done|].
  destruct rest as [|c2 rest]; [done|].
  rewrite findCutLocation_cons in Hcut.
  destruct (isUpper c1 && isLower c2).
  - simplify_eq. simpl. lia.
  - destruct (findCutLocation (String c2 rest)) as [j|]; [|done].
    specialize (IH j eq_refl). simpl in Hcut. simplify_eq.
    cbn [String.length] in *. lia.
Qed.

(** No slice expression of [Split] and of [sameCaseSplit] is out of range:
    the camel-boundary step with checked slices computes what the unchecked
    one computes, and both slices of the loop of [sameCaseSplit] are within
    the token at every index of the loop. *)
Theorem Samurai_slices_in_bounds (Log10 : float → float) (s : Samurai)
    (word : string) :
  camelCutChecked Log10 s word = Some (camelCut Log10 s word)
  ∧ ∀ i, (i < String.length word)%nat →
         sliceChecked word 0 i = Some (slice word 0 i)
         ∧ sliceChecked word i (String.length word)
           = Some (slice word i (String.length word)).
Proof.
  split.
  - unfold camelCutChecked, camelCut.
    destruct (findCutLocation word) as [i|] eqn:Hcut; [|done].
    apply findCutLocation_bound in Hcut.
    destruct (1 <? String.length word)%nat; [|done].
    cbv zeta. rewrite !sliceChecked_ok by lia. simpl.
    destruct (0 <? i)%nat; simpl; by destruct (fgt _ _).
  - intros i Hi. by rewrite !sliceChecked_ok by lia.
Qed.

(** ** The best two-piece candidate *)

Lemma SFltb_finite_pos (m1 m2 : positive) (e1 e2 : Z) :
  SFltb (S754_finite false m1 e1) (S754_finite false m2 e2) = true
  ↔ (e1 < e2 ∨ e1 = e2 ∧ Z.pos m1 < Z.pos m2)%Z.
Proof.
  unfold SFltb, SFcompare.
  change (Pos.compare_cont Eq m1 m2) with (Pos.compare m1 m2).
  destruct (Z.compare_spec e1 e2); [destruct (Pos.compare_spec m1 m2)| |];
    split; intros; try done; lia.
Qed.

Lemma SFltb_finite_neg (m1 m2 : positive) (e1 e2 : Z) :
  SFltb (S754_finite true m1 e1) (S754_finite true m2 e2) = true
  ↔ (e2 < e1 ∨ e1 = e2 ∧ Z.pos m2 < Z.pos m1)%Z.
Proof.
  unfold SFltb, SFcompare.
  change (Pos.compare_cont Eq m1 m2) with (Pos.compare m1 m2).
  destruct (Z.compare_spec e1 e2); [destruct (Pos.compare_spec m1 m2)| |];
    split; intros; try done; simpl in *; lia.
Qed.

(** Go's [<] on floats is transitive and irreflexive. *)
Lemma ltb_trans (a b c : float) :
  PrimFloat.ltb a b = true → PrimFloat.ltb b c = true →
  PrimFloat.ltb a c = true.
Proof.
  intros Hab Hbc. to_spec.
  destruct (Prim2SF a) as [[]|[]| |[] ma ea], (Prim2SF b) as [[]|[]| |[] mb eb],
           (Prim2SF c) as [[]|[]| |[] mc ec];
    try done; rewrite ?SFltb_finite_pos, ?SFltb_finite_neg in *; lia.
Qed.

Lemma ltb_irrefl (a : float) : PrimFloat.ltb a a = false.
Proof.
  to_spec. destruct (Prim2SF a) as [[]|[]| |[] ma ea]; try done;
    apply not_true_is_false; rewrite ?SFltb_finite_pos, ?SFltb_finite_neg; lia.
Qed.

(** A loop over [0 .. n-1] that returns at every index and keeps an
    invariant of the index reached. *)
Lemma forEach_seq {A : Type} (P : nat → A → Prop) (body : A → nat → option A)
    (n : nat) :
  (∀ i st, (i < n)%nat → P i st → ∃ st', body st i = Some st' ∧ P (S i) st') →
  ∀ m a st, (a + m = n)%nat → P a st →
    ∃ st', forEach body st (seq a m) = Some st' ∧ P n st'.
Proof.
  intros Hbody. induction m as [|m IH]; intros a st Ham Hst.
  - exists st. assert (a = n) as -> by lia. done.
  - destruct (Hbody a st) as (st1 & Hrun & Hst1); [lia|done|].
    destruct (IH (S a) st1) as (st' & Hloop & Hst'); [lia|done|].
    exists st'. simpl. by rewrite Hrun.
Qed.

Section SamuraiBestPair.

Variable Log10 : float → float.

(** An iteration at an index that is not left-only does not recurse: it
    compares the candidate of the index, if there is one, with the stored
    score. *)
Lemma sameCaseSplit_body_pair (s : Samurai)
    (rec : string → float → option (list string))
    (token : string) (baseScore : float) (st : float * list string) (i : nat) :
  onlyLeftHolds Log10 s token baseScore i = false →
  sameCaseSplit_body Log10 s rec token baseScore st i
  = Some (if bothHold Log10 s token baseScore i
                && fgt (pairScore Log10 s token i) st.1
          then (pairScore Log10 s token i,
                [slice token 0 i; slice token i (String.length token)])
          else st).
Proof.
  unfold onlyLeftHolds, bothHold, affixed, shouldSplit, pairScore,
    sameCaseSplit_body.
  destruct (negb _ && fgt _ _ && fgt _ _) eqn:Hboth; simpl.
  - intros _. by destruct (fgt _ st.1).
  - by intros ->.
Qed.

(** When no index of the loop is left-only, [sameCaseSplit] returns without
    recursing, and what it returns is the token unsplit or the two pieces of
    a cut at which both thresholds pass and whose score no other such cut
    exceeds. *)
Theorem sameCaseSplit_best_pair (fuel : nat) (s : Samurai) (token : string)
    (baseScore : float) :
  (∀ i, (i < String.length token)%nat →
        onlyLeftHolds Log10 s token baseScore i = false) →
  ∃ pieces,
    sameCaseSplit Log10 (S fuel) s token baseScore = Some pieces
    ∧ (pieces = [token]
       ∨ ∃ c, (c < String.length token)%nat
              ∧ bothHold Log10 s token baseScore c = true
              ∧ pieces = [slice token 0 c; slice token c (String.length token)]
              ∧ ∀ j, (j < String.length token)%nat →
                     bothHold Log10 s token baseScore j = true →
                     fgt (pairScore Log10 s token j) (pairScore Log10 s token c)
                     = false).
Proof.
  intros Hpairs.
  destruct (forEach_seq
    (λ k st,
       (∀ j, (j < k)%nat → bothHold Log10 s token baseScore j = true →
             fgt (pairScore Log10 s token j) st.1 = false)
       ∧ (st = ((-1)%float, [token])
          ∨ ∃ c, (c < k)%nat ∧ bothHold Log10 s token baseScore c = true
                 ∧ st = (pairScore Log10 s token c,
                         [slice token 0 c; slice token c (String.length token)])))
    (sameCaseSplit_body Log10 s (sameCaseSplit Log10 fuel s) token baseScore)
    (String.length token))
    with (m := String.length token) (a := 0%nat) (st := ((-1)%float, [token]))
    as ([best pieces] & Hloop & Hmax & Hshape).
  - intros i st Hi [Hmax Hshape]. eexists. split.
    { apply sameCaseSplit_body_pair. by apply Hpairs. }
    destruct (bothHold Log10 s token baseScore i) eqn:Hboth; simpl.
    + destruct (fgt (pairScore Log10 s token i) st.1) eqn:Hgt; simpl.
      * split; [|right; exists i; split_and!; [lia|done..]].
        intros j Hj Hjboth. unfold fgt in *.
        destruct (decide (j = i)) as [->|Hne]; [apply ltb_irrefl|].
        apply not_true_is_false. intros Hlt.
        assert (PrimFloat.ltb st.1 (pairScore Log10 s token j) = true) as Habs
          by (by eapply ltb_trans).
        rewrite Hmax in Habs; [done|lia|done].
      * split.
        -- intros j Hj Hjboth.
           destruct (decide (j = i)) as [->|Hne]; [done|]. apply Hmax; [lia|done].
        -- destruct Hshape as [->|(c & Hc & Hcboth & ->)]; [by left|].
           right. exists c. split_and!; [lia|done..].
    + split.
      * intros j Hj Hjboth.
        destruct (decide (j = i)) as [->|Hne]; [congruence|]. apply Hmax; [lia|done].
      * destruct Hshape as [->|(c & Hc & Hcboth & ->)]; [by left|].
        right. exists c. split_and!; [lia|done..].
  - lia.
  - split; [intros j Hj; lia | by left].
  - exists pieces. simpl. rewrite Hloop. split; [done|].
    destruct Hshape as [Heq|(c & Hc & Hcboth & Heq)]; simplify_eq; [by left|].
    right. exists c. split_and!; done.
Qed.

End SamuraiBestPair.

(** [abcd] has the candidates [a|bcd] of score 2 and [ab|cd] of score 4. *)
Lemma sameCaseSplit_best_pair_witness :
  ∃ pieces,
    sameCaseSplit sampleLog10 1 Pairs.pairsSamurai "abcd" 0%float = Some pieces
    ∧ (pieces = ["abcd"]
       ∨ ∃ c, (c < 4)%nat
              ∧ bothHold sampleLog10 Pairs.pairsSamurai "abcd" 0%float c = true
              ∧ pieces = [slice "abcd" 0 c; slice "abcd" c 4]
              ∧ ∀ j, (j < 4)%nat →
                     bothHold sampleLog10 Pairs.pairsSamurai "abcd" 0%float j = true →
                     fgt (pairScore sampleLog10 Pairs.pairsSamurai "abcd" j)
                         (pairScore sampleLog10 Pairs.pairsSamurai "abcd" c)
                     = false).
Proof.
  apply (sameCaseSplit_best_pair sampleLog10 0 Pairs.pairsSamurai "abcd" 0%float).
  intros i Hi.
  destruct i as [|[|[|[|i]]]]; [| | | |simpl in Hi; lia]; vm_compute; reflexivity.
Defined.

Example sameCaseSplit_pairs :
  sameCaseSplit sampleLog10 1 Pairs.pairsSamurai "abcd" 0%float
  = Some ["ab"; "cd"].
Proof. vm_compute. reflexivity. Qed.

(** * Further properties of the Basic expander *)

Lemma splitOn_not_nil (sep : ascii) (s : string) : splitOn sep s ≠ [].
Proof.
  induction s as [|c s IH]; [done|]. simpl.
  destruct (Ascii.eqb c sep); [done|]. by destruct (splitOn sep s).
Qed.

Lemma joinWith_cons (sep part : string) (rest : list string) :
  rest ≠ [] → joinWith sep (part :: rest) = part +:+ sep +:+ joinWith sep rest.
Proof. by destruct rest. Qed.

(** Joining the parts of a split with the separator gives the string back. *)
Lemma joinWith_splitOn (sep : ascii) (s : string) :
  joinWith (String sep "") (splitOn sep s) = s.
Proof.
  induction s as [|c s IH]; [done|]. cbn [splitOn].
  destruct (Ascii.eqb_spec c sep) as [->|Hne].
  - rewrite joinWith_cons by apply splitOn_not_nil. by rewrite IH.
  - pose proof (splitOn_not_nil sep s) as Hnil.
    destruct (splitOn sep s) as [|w ws]; [done|].
    destruct ws as [|w' ws].
    + simpl in *. by rewrite IH.
    + rewrite joinWith_cons by done. rewrite joinWith_cons in IH by done.
      by rewrite append_String, IH.
Qed.

(** No part of a split holds the separator. *)
Lemma splitOn_no_sep (sep : ascii) (s : string) :
  Forall (λ part, sep ∉ list_ascii_of_string part) (splitOn sep s).
Proof.
  induction s as [|c s IH]; simpl.
  - apply Forall_singleton. apply not_elem_of_nil.
  - destruct (Ascii.eqb_spec c sep) as [->|Hne].
    + apply Forall_cons. split; [apply not_elem_of_nil | done].
    + destruct (splitOn sep s) as [|w ws].
      * apply Forall_singleton. simpl. by intros [?|?%elem_of_nil]%elem_of_cons.
      * apply Forall_cons in IH as [Hw Hws]. apply Forall_cons. split; [|done].
        simpl. by intros [?|?]%elem_of_cons.
Qed.

Module ExpandersFurther.

Import Expanders.

Section BasicFurther.

Context {V : Type}.
Variable ToLower : string → string.

(** When the stoplist does not hold the folded token and the folded token
    maps to a phrase, [Expand] returns, with a [nil] error, at least one
    part, none of which holds a hyphen, and the parts joined by hyphens are
    the phrase. *)
Theorem Expand_phrase_parts (b : @Basic V) (token phrase : string) :
  ¬ held (stopList b) (ToLower token) →
  phraseOf b (ToLower token) phrase →
  ∃ parts,
    Expand ToLower b token = (Some parts, None)
    ∧ parts ≠ []
    ∧ joinWith "-" parts = phrase
    ∧ Forall (λ part, "-"%char ∉ list_ascii_of_string part) parts.
Proof.
  intros Hstop%ExpandersProps.index_not_held [Hphrase Hne]%ExpandersProps.index_phrase.
  exists (splitOn "-" phrase). unfold Expand. rewrite Hstop, Hphrase, Hne. simpl.
  split_and!; [done|apply splitOn_not_nil|apply joinWith_splitOn|apply splitOn_no_sep].
Qed.

(** [Expand] returns no result exactly when the folded token is held by
    neither the stoplist nor the known words and maps to no phrase, and it
    never returns an empty list. *)
Theorem Expand_no_result (b : @Basic V) (token : string) :
  ((Expand ToLower b token).1 = None
   ↔ ¬ held (stopList b) (ToLower token)
     ∧ ¬ (∃ phrase, phraseOf b (ToLower token) phrase)
     ∧ ¬ held (srcWords b) (ToLower token))
  ∧ (Expand ToLower b token).1 ≠ Some [].
Proof.
  unfold Expand, held, phraseOf, index.
  destruct (stopList b !! ToLower token) as [[v|]|] eqn:Hstop; simpl.
  1: { split; [|done]. split; [done|]. intros [Hnot _]. destruct Hnot. by exists v. }
  all: destruct (srcPhrases b !! ToLower token) as [phrase|] eqn:Hphrase; simpl.
  all: try destruct (String.eqb_spec phrase "") as [->|Hne]; simpl.
  all: destruct (srcWords b !! ToLower token) as [[w|]|] eqn:Hword; simpl.
  all: split; [|try done; try (intros Hnil; injection Hnil; apply splitOn_not_nil)].
  all: split; [try done|try (by intros Hnot)].
  all: try (intros _; split_and!; [by intros [? ?] | by intros (? & ? & ?); simplify_eq
                                  | by intros [? ?]]).
  all: try (intros (_ & Hnot & _); destruct Hnot; by exists phrase).
  all: try (intros (_ & _ & Hnot); destruct Hnot; by exists w).
Qed.

(** [Expand] reads the token through its case folding only, and never reads
    the dictionary: two expanders with the same known words, phrases and
    stoplist expand two tokens of the same folding alike. *)
Theorem Expand_ignores_dictionary (b b' : @Basic V) (token token' : string) :
  ToLower token = ToLower token' →
  srcWords b = srcWords b' →
  srcPhrases b = srcPhrases b' →
  stopList b = stopList b' →
  Expand ToLower b token = Expand ToLower b' token'.
Proof.
  intros Hfold Hwords Hphrases Hstop. unfold Expand.
  by rewrite Hfold, Hwords, Hphrases, Hstop.
Qed.

End BasicFurther.

Lemma Expand_phrase_parts_witness :
  ∃ parts,
    Expand asciiToLower guiBasic "GUI" = (Some parts, None)
    ∧ parts ≠ []
    ∧ joinWith "-" parts = "graphical-user-interface"
    ∧ Forall (λ part, "-"%char ∉ list_ascii_of_string part) parts.
Proof.
  apply (Expand_phrase_parts asciiToLower guiBasic "GUI" "graphical-user-interface").
  - intros [v Hv]. vm_compute in Hv. discriminate.
  - split; [vm_compute; reflexivity | discriminate].
Defined.

Lemma Expand_ignores_dictionary_witness :
  Expand asciiToLower guiBasic "GUI"
  = Expand asciiToLower Pairs.guiWithDictionary "gui".
Proof.
  apply (Expand_ignores_dictionary asciiToLower guiBasic Pairs.guiWithDictionary
           "GUI" "gui"); reflexivity.
Defined.

End ExpandersFurther.

(** * The camel-boundary step *)

Lemma substring_length (s : string) (a m : nat) :
  (a + m ≤ String.length s)%nat → String.length (String.substring a m s) = m.
Proof.
  revert a m. induction s as [|c s IH]; intros a m Hlen; simpl in Hlen.
  - assert (a = 0%nat) as -> by lia. assert (m = 0%nat) as -> by lia. done.
  - destruct a as [|a]; simpl.
    + destruct m as [|m]; [done|]. simpl. f_equal. apply IH. lia.
    + apply IH. lia.
Qed.

Lemma slice_length_within (s : string) (a b : nat) :
  (a ≤ b)%nat → (b ≤ String.length s)%nat →
  String.length (slice s a b) = (b - a)%nat.
Proof. intros Hab Hb. unfold slice. apply substring_length. lia. Qed.

(** The camel-boundary step either leaves the word as it is or yields a
    string one byte shorter than the word: when it rewrites the word it puts
    the separator in place of one byte and drops the last byte; it never
    just inserts a separator. *)
Theorem camelCut_length (Log10 : float → float) (s : Samurai) (word : string) :
  camelCut Log10 s word = word
  ∨ String.length (camelCut Log10 s word) = (String.length word - 1)%nat.
Proof.
  unfold camelCut.
  destruct (findCutLocation word) as [i|] eqn:Hcut; [|by left].
  apply findCutLocation_bound in Hcut.
  destruct (1 <? String.length word)%nat; [|by left].
  cbv zeta. destruct (fgt _ _).
  - destruct (0 <? i)%nat eqn:Hi; [|by left]. apply Nat.ltb_lt in Hi.
    right. rewrite !append_length, !slice_length_within by lia. simpl. lia.
  - right. rewrite !append_length, !slice_length_within by lia. simpl. lia.
Qed.

(** On [String] the step yields [_trin]. *)
Example camelCut_String :
  camelCut sampleLog10 (NewSamurai None None None None) "String" = "_trin".
Proof. vm_compute. reflexivity. Qed.
